(** * Intel HEX merge-and-fill: a shallow embedding of [srec_cat_fill.py]

    The script reads Intel HEX files into sparse address -> byte dictionaries,
    merges them (later files win), and writes one Intel HEX file in which
    the gaps of the address range are filled with zero.

    Python values are modelled as follows.
    - [int] is [Z]; the bit operations are the ones of [Z], which agree with
      Python's (two's complement, unbounded).
    - [str] is [list ascii]; a character stands for the code point of the
      same number, so texts are restricted to code points below 256.
    - a [dict] with integer keys and values is [gmap Z Z]; none of the
      functions below depends on the insertion order.
    - an exception is a value of [exn] returned in [result]; a file system
      is a finite map from paths to the lines of each file. Opening a file
      that is not there raises; writing always succeeds.
    - the [while] loop of [write_data_as_hex] runs on fuel, and is shown to
      end within the fuel it is given.
    What [main] prints and the parsing of the command line are left out.

    The licence check of the same directory, [license-check.py], is
    embedded in the module [license_check] below. *)

From Stdlib Require Import ZArith Ascii String List Lia.
From stdpp Require Import gmap strings list list_numbers fin_maps.

Open Scope Z_scope.

(** ** Python strings *)

Abbreviation str := (list ascii).

Definition lit (s : string) : str := list_ascii_of_string s.

Definition ord (c : ascii) : Z := Z.of_N (N_of_ascii c).

(** [str.isspace] on code points below 256: TAB..CR, FS..US, SPACE, NEL and
    NBSP. *)
Definition isspace (c : ascii) : bool :=
  let n := ord c in
  ((9 <=? n) && (n <=? 13)) || ((28 <=? n) && (n <=? 32))
  || (n =? 133) || (n =? 160).

(** The white space [int()] skips: the ASCII class of the C library, and
    the two Latin-1 spaces, which [int()] turns into a blank first. *)
Definition isspace_int (c : ascii) : bool :=
  let n := ord c in
  ((9 <=? n) && (n <=? 13)) || (n =? 32) || (n =? 133) || (n =? 160).

Fixpoint lstrip (sp : ascii -> bool) (s : str) : str :=
  match s with
  | c :: r => if sp c then lstrip sp r else s
  | [] => []
  end.

(** [s.strip()] *)
Definition strip (s : str) : str :=
  rev (lstrip isspace (rev (lstrip isspace s))).

(** An index of a slice, as Python normalises it for a string of length
    [len]: negative indices count from the end, and the result is clamped. *)
Definition slice_index (len i : Z) : nat :=
  Z.to_nat (Z.min len (Z.max 0 (if i <? 0 then i + len else i))).

(** [s[lo:hi]] *)
Definition slice (s : str) (lo hi : Z) : str :=
  let len := Z.of_nat (length s) in
  let a := slice_index len lo in
  let b := slice_index len hi in
  take (b - a) (drop a s).

(** ** [int(s, 16)] *)

(** The value of a character as a digit in base 16. *)
Definition hex_value (c : ascii) : option Z :=
  let n := ord c in
  if (48 <=? n) && (n <=? 57) then Some (n - 48)
  else if (65 <=? n) && (n <=? 70) then Some (n - 55)
  else if (97 <=? n) && (n <=? 102) then Some (n - 87)
  else None.

Definition is_underscore (c : ascii) : bool := ord c =? 95.

(** The digit loop of [int()]: digits, single underscores between them,
    no underscore at the end. It returns the value and the rest of the
    text. *)
Fixpoint scan_digits (s : str) (prev_us : bool) (acc : Z) : option (Z * str) :=
  match s with
  | c :: r =>
      if is_underscore c then
        if prev_us then None else scan_digits r true acc
      else
        match hex_value c with
        | Some d => scan_digits r false (16 * acc + d)
        | None => if prev_us then None else Some (acc, s)
        end
  | [] => if prev_us then None else Some (acc, [])
  end.

(** The optional sign. *)
Definition read_sign (s : str) : Z * str :=
  match s with
  | c :: r =>
      if ord c =? 43 then (1, r)
      else if ord c =? 45 then (-1, r)
      else (1, s)
  | [] => (1, s)
  end.

(** The optional prefix [0x] or [0X], after which one underscore may
    come. *)
Definition skip_prefix (s : str) : str :=
  match s with
  | z :: x :: r =>
      if (ord z =? 48) && ((ord x =? 120) || (ord x =? 88)) then
        match r with
        | u :: r' => if is_underscore u then r' else r
        | [] => r
        end
      else s
  | _ => s
  end.

(** [int(s, 16)], [None] standing for the [ValueError] it raises. *)
Definition int16 (s : str) : option Z :=
  let '(sign, s1) := read_sign (lstrip isspace_int s) in
  let s2 := skip_prefix s1 in
  match s2 with
  | [] => None
  | c :: _ =>
      match hex_value c with
      | None => None
      | Some _ =>
          match scan_digits s2 false 0 with
          | None => None
          | Some (v, rest) =>
              if forallb isspace_int rest then Some (sign * v) else None
          end
      end
  end.

(** ** [format(n, "0wX")] *)

Definition hex_char (d : Z) : ascii :=
  nth (Z.to_nat d) (lit "0123456789ABCDEF") "0"%char.

Fixpoint hex_digits (fuel : nat) (n : Z) : str :=
  match fuel with
  | O => []
  | S f =>
      if n <? 16 then [hex_char n]
      else hex_digits f (n / 16) ++ [hex_char (n mod 16)]
  end.

(** The upper-case hexadecimal digits of [n >= 0], without padding. *)
Definition hex_upper (n : Z) : str :=
  hex_digits (S (Z.to_nat (Z.log2 n))) n.

Definition zfill (w : nat) (s : str) : str :=
  replicate (w - length s) "0"%char ++ s.

(** [format(n, "0wX")]: the sign comes first and counts in the width. *)
Definition fmtX (w : nat) (n : Z) : str :=
  if n <? 0 then "-"%char :: zfill (w - 1) (hex_upper (- n))
  else zfill w (hex_upper n).

(** ** Exceptions, dictionaries and files *)

Inductive exn :=
| ValueError (msg : string)
| FileNotFoundError (path : string).

Inductive result (A : Type) :=
| Ok (a : A)
| Raise (e : exn).
Arguments Ok {A} a.
Arguments Raise {A} e.

#[global] Instance result_ret : MRet result := fun A a => Ok a.
#[global] Instance result_bind : MBind result := fun A B f r =>
  match r with
  | Ok a => f a
  | Raise e => Raise e
  end.

(** The [ValueError] of [int()]; the text it quotes is left out. *)
Definition invalid_literal : exn :=
  ValueError "invalid literal for int() with base 16".

Definition int16_exn (s : str) : result Z :=
  match int16 s with
  | Some v => Ok v
  | None => Raise invalid_literal
  end.

(** [d.get(k, dflt)] *)
Definition dict_get (d : gmap Z Z) (k dflt : Z) : Z := default dflt (d !! k).

(** [d.update(other)]: every key of [other] is set in [d]. *)
Definition dict_update (d other : gmap Z Z) : gmap Z Z := other ∪ d.

(** [min(d.keys())] and [max(d.keys())]; [None] on the empty dictionary. *)
Definition min_key (d : gmap Z Z) : option Z :=
  match (map_to_list d).*1 with
  | [] => None
  | k :: ks => Some (foldl Z.min k ks)
  end.

Definition max_key (d : gmap Z Z) : option Z :=
  match (map_to_list d).*1 with
  | [] => None
  | k :: ks => Some (foldl Z.max k ks)
  end.

(** A file is the list of its lines, as the iteration over an open file
    yields them (each with its line end). *)
Abbreviation filesystem := (gmap string (list str)).

(** ** [parse_intel_hex] *)

Record pstate := PState { data : gmap Z Z; extended_addr : Z }.

Inductive control :=
| Continue (st : pstate)
| Break (st : pstate).

(** The loop over the bytes of a data record, [idxs] being the values of
    [range(byte_count)] still to come. *)
Fixpoint store_bytes (data_field : str) (base_addr : Z) (idxs : list Z)
    (d : gmap Z Z) : result (gmap Z Z) :=
  match idxs with
  | [] => Ok d
  | i :: rest =>
      byte_val ← int16_exn (slice data_field (i * 2) (i * 2 + 2));
      store_bytes data_field base_addr rest (<[base_addr + i := byte_val]> d)
  end.

(** The fields of a record line, as the first statements of the loop body
    read them: byte count, offset, record type and the text of the data
    field. *)
Definition read_fields (line : str) : result (Z * Z * Z * str) :=
  byte_count ← int16_exn (slice line 1 3);
  offset ← int16_exn (slice line 3 7);
  record_type ← int16_exn (slice line 7 9);
  let data_field := slice line 9 (9 + byte_count * 2) in
  Ok (byte_count, offset, record_type, data_field).

(** The body of the loop over the lines of a file. *)
Definition parse_line (st : pstate) (raw : str) : result control :=
  let line := strip raw in
  match line with
  | [] => Ok (Continue st)
  | c :: _ =>
      if negb (ord c =? 58) then Ok (Continue st) else
      '(byte_count, offset, record_type, data_field) ← read_fields line;
      if record_type =? 0x04 then
        if negb (byte_count =? 2) then
          Raise (ValueError "Invalid extended linear address record length")
        else
          ext ← int16_exn data_field;
          Ok (Continue (PState (data st) ext))
      else if record_type =? 0x00 then
        let base_addr := Z.shiftl (extended_addr st) 16 + offset in
        d ← store_bytes data_field base_addr (seqZ 0 byte_count) (data st);
        Ok (Continue (PState d (extended_addr st)))
      else if record_type =? 0x01 then
        Ok (Break st)
      else
        Ok (Continue st)
  end.

Fixpoint parse_lines (lines : list str) (st : pstate) : result (gmap Z Z) :=
  match lines with
  | [] => Ok (data st)
  | raw :: rest =>
      match parse_line st raw with
      | Ok (Continue st') => parse_lines rest st'
      | Ok (Break st') => Ok (data st')
      | Raise e => Raise e
      end
  end.

Definition parse_intel_hex (fs : filesystem) (file_path : string)
    : result (gmap Z Z) :=
  match fs !! file_path with
  | None => Raise (FileNotFoundError file_path)
  | Some lines => parse_lines lines (PState ∅ 0)
  end.

(** ** [compute_checksum] *)

(** [sum(xs)] *)
Definition sum (xs : list Z) : Z := foldl Z.add 0 xs.

Definition compute_checksum (byte_count offset record_type : Z)
    (data_bytes : list Z) : Z :=
  let total :=
    byte_count + Z.land (Z.shiftr offset 8) 0xFF + Z.land offset 0xFF
    + record_type in
  let total := total + sum data_bytes in
  Z.land (Z.lnot total + 1) 0xFF.

(** ** [write_data_as_hex] *)

(** [":{:02X}{:04X}{:02X}{}{:02X}".format(byte_count, offset, record_type,
    ''.join(f"{b:02X}" for b in data_bytes), chksum)] *)
Definition format_record (byte_count offset record_type : Z)
    (data_bytes : list Z) (chksum : Z) : str :=
  lit ":" ++ fmtX 2 byte_count ++ fmtX 4 offset ++ fmtX 2 record_type
  ++ concat (fmtX 2 <$> data_bytes) ++ fmtX 2 chksum.

Definition gen_ext_record (ext_addr : Z) : str :=
  let byte_count := 2 in
  let offset := 0 in
  let record_type := 0x04 in
  let data_bytes := [Z.land (Z.shiftr ext_addr 8) 0xFF; Z.land ext_addr 0xFF] in
  let chksum := compute_checksum byte_count offset record_type data_bytes in
  format_record byte_count offset record_type data_bytes chksum.

Record wstate := WState {
  current : Z;
  last_ext_addr : option Z;
  records : list str
}.

(** One turn of the [while] loop. *)
Definition loop_body (merged_data : gmap Z Z) (max_addr : Z) (s : wstate)
    : wstate :=
  let ext_addr := Z.shiftr (current s) 16 in
  let s1 :=
    if decide (Some ext_addr = last_ext_addr s) then s
    else WState (current s) (Some ext_addr)
                (records s ++ [gen_ext_record ext_addr]) in
  let offset := Z.land (current s1) 0xFFFF in
  let chunk_len := Z.min (16 - offset mod 16) (max_addr - current s1 + 1) in
  let data_bytes :=
    (fun i => dict_get merged_data (current s1 + i) 0) <$> seqZ 0 chunk_len in
  let chksum := compute_checksum chunk_len offset 0x00 data_bytes in
  let record := format_record chunk_len offset 0x00 data_bytes chksum in
  WState (current s1 + chunk_len) (last_ext_addr s1) (records s1 ++ [record]).

(** The [while] loop, bounded by [fuel] turns; [None] when they do not
    suffice. *)
Fixpoint while_loop (fuel : nat) (merged_data : gmap Z Z) (max_addr : Z)
    (s : wstate) : option wstate :=
  if current s <=? max_addr then
    match fuel with
    | O => None
    | S f => while_loop f merged_data max_addr (loop_body merged_data max_addr s)
    end
  else Some s.

(** The records of the output file, end-of-file record included. *)
Definition output_records (merged_data : gmap Z Z) (min_addr max_addr : Z)
    : option (list str) :=
  match while_loop (Z.to_nat (max_addr - min_addr + 1)) merged_data max_addr
          (WState min_addr None []) with
  | Some s => Some (records s ++ [lit ":00000001FF"])
  | None => None
  end.

Definition newline : ascii := "010"%char.

(** [write_data_as_hex(merged_data, output_file)]: the outcome and the file
    system after it; [None] when the loop runs out of turns. *)
Definition write_data_as_hex (merged_data : gmap Z Z) (output_file : string)
    (fs : filesystem) : option (result unit * filesystem) :=
  match min_key merged_data, max_key merged_data with
  | Some min_addr, Some max_addr =>
      match output_records merged_data min_addr max_addr with
      | Some recs =>
          Some (Ok tt,
                <[output_file := (fun rec => rec ++ [newline]) <$> recs]> fs)
      | None => None
      end
  | _, _ => Some (Raise (ValueError "No data to write"), fs)
  end.

(** ** [main] *)

(** The loop over the input files. *)
Fixpoint merge_files (fs : filesystem) (files : list string)
    (merged_data : gmap Z Z) : result (gmap Z Z) :=
  match files with
  | [] => Ok merged_data
  | file :: rest =>
      file_data ← parse_intel_hex fs file;
      merge_files fs rest (dict_update merged_data file_data)
  end.

(** [main], without what it prints. *)
Definition main (files : list string) (output : string) (fs : filesystem)
    : option (result unit * filesystem) :=
  match merge_files fs files ∅ with
  | Raise e => Some (Raise e, fs)
  | Ok merged_data =>
      if decide (merged_data = ∅) then Some (Ok tt, fs)
      else write_data_as_hex merged_data output fs
  end.

(** ** The merge of a sequence of images *)

(** What the loop of [main] computes from the images of the files, once
    they are parsed. *)
Definition merge_images (images : list (gmap Z Z)) : gmap Z Z :=
  foldl dict_update ∅ images.

(** The value of [a] in the latest image of the sequence that has it. *)
Fixpoint latest (images : list (gmap Z Z)) (a : Z) : option Z :=
  match images with
  | [] => None
  | d :: rest =>
      match latest rest a with
      | Some v => Some v
      | None => d !! a
      end
  end.

(** ** The records of the output, before they are formatted *)

(** What a turn of the [while] loop appends: the arguments of the two
    [format] calls, and for a data record the address it starts at. *)
Inductive event :=
| ExtRec (ext_addr : Z)
| DataRec (cur chunk_len offset : Z) (data_bytes : list Z) (chksum : Z).

Definition render (e : event) : str :=
  match e with
  | ExtRec ext_addr => gen_ext_record ext_addr
  | DataRec _ chunk_len offset data_bytes chksum =>
      format_record chunk_len offset 0x00 data_bytes chksum
  end.

(** The [while] loop again, collecting events instead of text. *)
Fixpoint walk (fuel : nat) (merged_data : gmap Z Z) (max_addr cur : Z)
    (last : option Z) : list event :=
  match fuel with
  | O => []
  | S f =>
      if cur <=? max_addr then
        let ext_addr := Z.shiftr cur 16 in
        let offset := Z.land cur 0xFFFF in
        let chunk_len := Z.min (16 - offset mod 16) (max_addr - cur + 1) in
        let data_bytes :=
          (fun i => dict_get merged_data (cur + i) 0) <$> seqZ 0 chunk_len in
        let chksum := compute_checksum chunk_len offset 0x00 data_bytes in
        (if decide (Some ext_addr = last) then [] else [ExtRec ext_addr])
        ++ DataRec cur chunk_len offset data_bytes chksum
           :: walk f merged_data max_addr (cur + chunk_len) (Some ext_addr)
      else []
  end.

Definition trace (merged_data : gmap Z Z) : list event :=
  match min_key merged_data, max_key merged_data with
  | Some min_addr, Some max_addr =>
      walk (Z.to_nat (max_addr - min_addr + 1)) merged_data max_addr min_addr
           None
  | _, _ => []
  end.

(** The lines of the output file for a trace. *)
Definition file_of_trace (t : list event) : list str :=
  (fun rec => rec ++ [newline]) <$> ((render <$> t) ++ [lit ":00000001FF"]).


Definition chunk_addrs (e : event) : list Z :=
  match e with
  | DataRec cur chunk_len _ _ _ => seqZ cur chunk_len
  | ExtRec _ => []
  end.

Definition chunk_bytes (e : event) : list Z :=
  match e with
  | DataRec _ _ _ data_bytes _ => data_bytes
  | ExtRec _ => []
  end.

(** What the loop computes for the data record that starts at [cur]. *)
Definition chunk_ok (merged_data : gmap Z Z) (min_addr max_addr : Z)
    (e : event) : Prop :=
  match e with
  | DataRec cur chunk_len offset data_bytes chksum =>
      min_addr <= cur <= max_addr
      ∧ offset = Z.land cur 0xFFFF
      ∧ chunk_len = Z.min (16 - offset mod 16) (max_addr - cur + 1)
      ∧ data_bytes
        = (fun i => dict_get merged_data (cur + i) 0) <$> seqZ 0 chunk_len
      ∧ chksum = compute_checksum chunk_len offset 0x00 data_bytes
  | ExtRec _ => True
  end.


(** The sum of the fields of a record that its checksum covers. *)
Definition field_sum (byte_count offset record_type : Z) (data_bytes : list Z)
    : Z :=
  byte_count + (offset / 256) mod 256 + offset mod 256 + record_type
  + sum data_bytes.

(** ** Decoding and encoding one record *)

(** The bytes of a data field, as the loop over [range(byte_count)] reads
    them. *)
Fixpoint read_bytes (data_field : str) (idxs : list Z) : result (list Z) :=
  match idxs with
  | [] => Ok []
  | i :: rest =>
      byte_val ← int16_exn (slice data_field (i * 2) (i * 2 + 2));
      bytes ← read_bytes data_field rest;
      Ok (byte_val :: bytes)
  end.

Record record := Rec {
  byte_count : Z;
  offset : Z;
  record_type : Z;
  rec_data : list Z
}.

(** The fields and the bytes of a line that starts with the record mark. *)
Definition decode (line : str) : result record :=
  '(byte_count, offset, record_type, data_field) ← read_fields line;
  bytes ← read_bytes data_field (seqZ 0 byte_count);
  Ok (Rec byte_count offset record_type bytes).

(** The line of a record, with the checksum computed from its fields. *)
Definition encode (r : record) : str :=
  format_record (byte_count r) (offset r) (record_type r) (rec_data r)
    (compute_checksum (byte_count r) (offset r) (record_type r) (rec_data r)).

Definition is_hex (c : ascii) : bool :=
  match hex_value c with Some _ => true | None => false end.

Definition is_upper_hex (c : ascii) : bool :=
  let n := ord c in
  ((48 <=? n) && (n <=? 57)) || ((65 <=? n) && (n <=? 70)).

(** The value of a text of hexadecimal digits. *)
Definition hex_number (ds : str) : Z :=
  foldl (fun acc c => 16 * acc + default 0 (hex_value c)) 0 ds.

(** The [w] upper-case hexadecimal digits of [n], for [0 <= n < 16 ^ w]. *)
Fixpoint fixed_hex (w : nat) (n : Z) : str :=
  match w with
  | O => []
  | S w' => fixed_hex w' (n / 16) ++ [hex_char (n mod 16)]
  end.

(** The byte that the pair of digits number [i] of a data field stands
    for. *)
Definition byte_at (data_field : str) (i : Z) : Z :=
  hex_number (slice data_field (i * 2) (i * 2 + 2)).

(** The dictionary after the bytes at the places [idxs] of a data field
    are stored from [base_addr] on. *)
Definition stored (data_field : str) (base_addr : Z) (idxs : list Z)
    (d : gmap Z Z) : gmap Z Z :=
  foldl (fun d i => <[base_addr + i := byte_at data_field i]> d) d idxs.

(** What the loop body does for a record line whose fields are the
    digits of [p]. *)
Definition record_outcome (st : pstate) (p : str) : control :=
  let byte_count := hex_number (slice p 1 3) in
  let offset := hex_number (slice p 3 7) in
  let record_type := hex_number (slice p 7 9) in
  let data_field := slice p 9 (9 + byte_count * 2) in
  if record_type =? 0x04 then
    Continue (PState (data st) (hex_number data_field))
  else if record_type =? 0x00 then
    let base_addr := Z.shiftl (extended_addr st) 16 + offset in
    Continue (PState (stored data_field base_addr (seqZ 0 byte_count) (data st))
                     (extended_addr st))
  else if record_type =? 0x01 then Break st
  else Continue st.


(** A digit [a]..[f] put in upper case; any other character as it is. *)
Definition upper_digit (c : ascii) : ascii :=
  let n := ord c in
  if (97 <=? n) && (n <=? 102) then ascii_of_N (Z.to_N (n - 32)) else c.

(** A text with its digits [a]..[f] in upper case. *)
Definition upper_digits (s : str) : str := upper_digit <$> s.



(** The text [p] is the first [9 + 2 * byte_count] characters of a record
    line and holds valid fields: the mark, hexadecimal digits, and for an
    extended linear address record a byte count of 2. *)
Definition valid_fields (p : str) : bool :=
  match p with
  | c :: digits =>
      (ord c =? 58) && forallb is_hex digits
      && (9 <=? Z.of_nat (length p))
      && (Z.of_nat (length p) =? 9 + 2 * hex_number (slice p 1 3))
      && (negb (hex_number (slice p 7 9) =? 0x04)
          || (hex_number (slice p 1 3) =? 2))
  | [] => false
  end.

(** The reading of claim C7 to the letter: a record line whose data field
    holds fewer characters than its byte count demands is never accepted. *)
Definition short_data_always_raises : Prop :=
  ∀ (st : pstate) (raw : str) bc off ty (data_field : str),
    head (strip raw) = Some ":"%char ->
    read_fields (strip raw) = Ok (bc, off, ty, data_field) ->
    Z.of_nat (length data_field) < 2 * bc ->
    ∃ e, parse_line st raw = Raise e.

(** ** The files of the examples *)

(** A line of a file: the text and the line end. *)
Definition text_line (s : string) : str := lit s ++ [newline].

Definition fileA : list str :=
  [text_line ":0100000010EF"; text_line ":0100050020DA";
   text_line ":00000001FF"].

Definition fileB : list str :=
  [text_line ":01000500FFFB"; text_line ":00000001FF"].

Definition fs_AB : filesystem := <["a.hex" := fileA]> (<["b.hex" := fileB]> ∅).

Definition imageA : gmap Z Z := <[0x0005 := 0x20]> (<[0x0000 := 0x10]> ∅).
Definition imageB : gmap Z Z := <[0x0005 := 0xFF]> ∅.

(** ** The image that the output file stands for *)

(** The dictionary [d] with the addresses [cur, cur + n) set to their
    values in [merged_data], and to 0 where it has none. *)
Definition fill_range (merged_data : gmap Z Z) (cur n : Z) (d : gmap Z Z)
    : gmap Z Z :=
  foldl (fun d a => <[a := dict_get merged_data a 0]> d) d (seqZ cur n).

(** The text of a record up to its checksum, for fields that fit their
    widths. *)
Definition record_prefix (byte_count offset record_type : Z)
    (data_bytes : list Z) : str :=
  lit ":" ++ fixed_hex 2 byte_count ++ fixed_hex 4 offset
  ++ fixed_hex 2 record_type ++ concat (fixed_hex 2 <$> data_bytes).

(** The lines of a file for a list of records. *)
Definition lines_of (recs : list str) : list str :=
  (fun rec => rec ++ [newline]) <$> recs.

(** The image [merged_data] with the gaps between its smallest and its
    greatest address filled with 0. *)
Definition zero_filled (merged_data : gmap Z Z) : gmap Z Z :=
  match min_key merged_data, max_key merged_data with
  | Some min_addr, Some max_addr =>
      fill_range merged_data min_addr (max_addr - min_addr + 1) ∅
  | _, _ => ∅
  end.

(** The addresses of an image fit 32 bits and its values are bytes. *)
Definition image_in_range (d : gmap Z Z) : Prop :=
  ∀ k v, d !! k = Some v -> 0 <= k < 2 ^ 32 ∧ 0 <= v < 256.

(** ** Lines that the parser passes over *)

(** The line is passed over by the parser: it is blank, it does not start
    with the mark, or it is a record whose byte count, offset and type
    are read without error and whose type is other than 0, 1 and 4. A
    record one of whose three fields cannot be read is not such a line,
    whatever its type field holds: the loop body raises on it. *)
Definition is_skipped (raw : str) : bool :=
  match strip raw with
  | [] => true
  | c :: _ =>
      if negb (ord c =? 58) then true
      else
        match read_fields (strip raw) with
        | Ok (_, _, record_type, _) =>
            negb (record_type =? 0x04) && negb (record_type =? 0x00)
            && negb (record_type =? 0x01)
        | Raise _ => false
        end
  end.

(** The first nine characters of a record line: the mark and the eight
    hexadecimal digits of the byte count, the offset and the type. *)
Definition is_header (p : str) : bool :=
  match p with
  | c :: digits =>
      (ord c =? 58) && forallb is_hex digits && (Z.of_nat (length p) =? 9)
  | [] => false
  end.

(** One of the three fields of the line cannot be read by [int()]. *)
Definition bad_field (line : str) : bool :=
  match int16 (slice line 1 3), int16 (slice line 3 7),
        int16 (slice line 7 9) with
  | Some _, Some _, Some _ => false
  | _, _, _ => true
  end.

(** The addresses at which the data records of a trace start. *)
Definition chunk_starts (t : list event) : list Z :=
  omap (fun e => match e with DataRec cur _ _ _ _ => Some cur | _ => None end)
       t.

(** ** The values that the parser can store *)




(** * The licence check: a shallow embedding of [license-check.py]

    The script walks a directory, keeps the files named like C, C++ or PIO
    sources, looks for a licence notice in the first 1000 characters of
    each, and counts what it finds.

    - A regular expression is modelled for the patterns of the script
      only: literal characters, escaped characters and [|]. For such a
      pattern [re.search] succeeds when one of the alternatives occurs in
      the text.
    - A directory is a [tree] of named subdirectories and file names, in
      the order in which the system lists them; links and directories that
      cannot be listed are left out, as [os.walk] passes over them.
    - Reading a file is a function from paths to contents, [None] where
      [open] or [read] raises.
    What is printed, and [os.path.relpath], which is used for printing
    only, are left out. *)

Module license_check.

(** [c.lower()] on code points below 256: the ASCII capitals and the
    Latin-1 capitals, the multiplication sign excepted. *)
Definition lower_char (c : ascii) : ascii :=
  let n := ord c in
  if ((65 <=? n) && (n <=? 90))
     || ((192 <=? n) && (n <=? 222) && negb (n =? 215))
  then ascii_of_N (Z.to_N (n + 32))
  else c.

(** [s.lower()] *)
Definition lower (s : str) : str := lower_char <$> s.

(** [s.startswith(prefix)] *)
Fixpoint startswith (s prefix : str) {struct prefix} : bool :=
  match prefix, s with
  | [], _ => true
  | p :: prefix', c :: s' => Ascii.eqb p c && startswith s' prefix'
  | _ :: _, [] => false
  end.

(** [s.endswith(suffix)] *)
Definition endswith (s suffix : str) : bool :=
  startswith (rev s) (rev suffix).

(** [sub in s] *)
Fixpoint contains (s sub : str) : bool :=
  startswith s sub
  || match s with
     | _ :: s' => contains s' sub
     | [] => false
     end.

(** The alternatives of a pattern: the texts between the bars, a backslash
    making the next character literal. [cur] holds the alternative being
    read, reversed. *)
Fixpoint alternatives (pattern cur : str) : list str :=
  match pattern with
  | [] => [rev cur]
  | c :: r =>
      if ord c =? 124 then rev cur :: alternatives r []
      else if ord c =? 92 then
        match r with
        | e :: r' => alternatives r' (e :: cur)
        | [] => [rev cur]
        end
      else alternatives r (c :: cur)
  end.

(** [bool(re.search(pattern, s))] *)
Definition re_search (pattern s : str) : bool :=
  existsb (contains s) (alternatives pattern []).

Definition LICENSE_PATTERNS : list (string * str) :=
  [ ("MIT"%string,
     lit "MIT License|Permission is hereby granted, free of charge");
    ("LGPL"%string, lit "GNU Lesser General Public License|LGPL");
    ("GPL"%string, lit "GNU General Public License|GPL");
    ("Apache"%string, lit "Apache License");
    ("CC0"%string, lit "Creative Commons CC0");
    ("BSD"%string, lit "BSD License|Redistribution and use in source") ].

(** The copyright sign, code point 169. *)
Definition copyright_sign : ascii := ascii_of_N 169.

(** The pattern of the generic notices: the word, the sign, or a [c] in
    parentheses. *)
Definition COPYRIGHT_PATTERN : str :=
  lit "copyright|" ++ [copyright_sign] ++ lit "|\(c\)".

(** The loop over the items of [LICENSE_PATTERNS]: the first pattern that
    matches decides. *)
Fixpoint first_match (patterns : list (string * str)) (header : str)
    : option string :=
  match patterns with
  | (license_type, pattern) :: rest =>
      if re_search (lower pattern) header then Some license_type
      else first_match rest header
  | [] => None
  end.

Definition detect_license (content : str) : bool * string :=
  let header := lower (take 1000 content) in
  match first_match LICENSE_PATTERNS header with
  | Some license_type => (true, license_type)
  | None =>
      if re_search COPYRIGHT_PATTERN header then (true, "Copyright"%string)
      else (false, ""%string)
  end.

(** A directory: its subdirectories and the names of its files. *)
#[warnings="-register-all"]
Inductive tree : Type :=
  | Dir (dirs : list (str * tree)) (files : list str).

(** [os.path.join(a, b)] on POSIX. *)
Definition join (a b : str) : str :=
  if startswith b (lit "/") then b
  else if bool_decide (a = []) || endswith a (lit "/") then a ++ b
  else a ++ lit "/" ++ b.

(** [os.walk(top)]: the directory itself, then its subdirectories in
    turn. *)
Fixpoint os_walk (t : tree) (top : str) : list (str * list str * list str) :=
  match t with
  | Dir dirs files =>
      (top, fst <$> dirs, files)
      :: flat_map (fun d => os_walk (snd d) (join top (fst d))) dirs
  end.

Definition SOURCE_SUFFIXES : list str :=
  [lit ".h"; lit ".hpp"; lit ".cpp"; lit ".c"; lit ".pio"].

(** [file.endswith(('.h', '.hpp', '.cpp', '.c', '.pio'))] *)
Definition is_source (file : str) : bool :=
  existsb (endswith file) SOURCE_SUFFIXES.

Definition find_source_files (t : tree) (src_dir : str) : list str :=
  flat_map
    (fun '(root, _, files) => join root <$> filter (fun f => is_source f) files)
    (os_walk t src_dir).

Record stats : Type := Stats {
  total_files : Z;
  with_license : Z;
  without_license : Z;
  license_types : gmap string Z
}.

(** One turn of the loop of [check_licenses]. A file that cannot be read
    raises inside the [try], and the counters stay as they are. *)
Definition check_file (read : str -> option str) (st : stats)
    (file_path : str) : stats :=
  match read file_path with
  | None => st
  | Some content =>
      let '(has_license, license_type) := detect_license content in
      if has_license then
        Stats (total_files st) (with_license st + 1) (without_license st)
          (<[license_type :=
               default 0 (license_types st !! license_type) + 1]>
             (license_types st))
      else
        Stats (total_files st) (with_license st) (without_license st + 1)
          (license_types st)
  end.

Definition check_licenses (read : str -> option str) (t : tree)
    (src_dir : str) : stats :=
  let files := find_source_files t src_dir in
  fold_left (check_file read) files (Stats (Z.of_nat (length files)) 0 0 ∅).

(** What [src_dir] names: nothing, something that is not a directory, over
    which [os.walk] yields nothing, or a directory. *)
Inductive entry : Type :=
  | Missing
  | NotADirectory
  | Directory (t : tree).

(** The exit status of [main]. *)
Definition main (read : str -> option str) (src : entry) (src_dir : str)
    : Z :=
  match src with
  | Missing => 1
  | NotADirectory => 0
  | Directory t =>
      let stats := check_licenses read t src_dir in
      if 0 <? without_license stats then 1 else 0
  end.

(** The phrases that the patterns look for. *)
Definition NOTICES : list str :=
  [ lit "mit license";
    lit "permission is hereby granted, free of charge";
    lit "gnu lesser general public license";
    lit "lgpl";
    lit "gnu general public license";
    lit "gpl";
    lit "apache license";
    lit "creative commons cc0";
    lit "bsd license";
    lit "redistribution and use in source";
    lit "copyright";
    [copyright_sign];
    lit "(c)" ].

(** The sum of the counts of a dictionary. *)
Definition count_sum (m : gmap string Z) : Z :=
  map_fold (fun _ v acc => v + acc) 0 m.

(** A file that was read and has no notice. *)
Definition unlicensed (read : str -> option str) (file_path : str) : bool :=
  match read file_path with
  | Some content => negb (fst (detect_license content))
  | None => false
  end.

(** A file that can be read. *)
Definition readable (read : str -> option str) (file_path : str) : bool :=
  match read file_path with
  | Some _ => true
  | None => false
  end.

(** The number of files of a directory and of all the directories below
    it that are named like a source. *)
Fixpoint source_count (t : tree) : nat :=
  match t with
  | Dir dirs files =>
      (length (filter (fun f => is_source f) files)
       + list_sum (map (fun d => source_count (snd d)) dirs))%nat
  end.

(** The file entries of a directory and of the directories below it, each
    with the path of its directory, in the order of the walk. *)
Fixpoint entries (t : tree) (top : str) : list (str * str) :=
  match t with
  | Dir dirs files =>
      ((fun f => (top, f)) <$> files)
      ++ flat_map (fun d => entries (snd d) (join top (fst d))) dirs
  end.

(** A name of a directory listing: not empty, and without a slash. *)
Definition is_name (n : str) : bool :=
  negb (bool_decide (n = []))
  && forallb (fun c => negb (Ascii.eqb c "/"%char)) n.

(** The listings of a directory tree are those of a file system: every
    entry is a name, and no name comes twice in a directory. *)
Fixpoint listing_ok (t : tree) : bool :=
  match t with
  | Dir dirs files =>
      bool_decide (NoDup ((fst <$> dirs) ++ files))
      && forallb is_name ((fst <$> dirs) ++ files)
      && forallb (fun d => listing_ok (snd d)) dirs
  end.

(** What [join] puts before a name: the directory, with a slash unless it
    is empty or ends with one. *)
Definition base (top : str) : str :=
  if bool_decide (top = []) || endswith top (lit "/") then top
  else top ++ lit "/".

(** The paths of the source files below a directory, from that
    directory. *)
Fixpoint relative_paths (t : tree) : list str :=
  match t with
  | Dir dirs files =>
      filter (fun f => is_source f) files
      ++ flat_map
           (fun d => (fun r => fst d ++ lit "/" ++ r) <$> relative_paths (snd d))
           dirs
  end.

End license_check.

(** * Properties *)

(** ** The Python primitives on small inputs *)

Example int16_plain : int16 (lit "1fA") = Some 506.
Proof. reflexivity. Qed.

Example int16_empty : int16 [] = None.
Proof. reflexivity. Qed.

Example int16_signed : int16 (lit "-F") = Some (-15).
Proof. reflexivity. Qed.

Example int16_blank : int16 (lit " 7") = Some 7.
Proof. reflexivity. Qed.

Example int16_prefix : int16 (lit "0x_a") = Some 10.
Proof. reflexivity. Qed.

Example int16_two_underscores : int16 (lit "1__0") = None.
Proof. reflexivity. Qed.

Example int16_not_a_digit : int16 (lit "1G") = None.
Proof. reflexivity. Qed.

Example fmtX_byte : fmtX 2 10 = lit "0A".
Proof. reflexivity. Qed.

Example fmtX_wide : fmtX 2 4096 = lit "1000".
Proof. reflexivity. Qed.

Example fmtX_negative : fmtX 4 (-1) = lit "-001".
Proof. reflexivity. Qed.

Example slice_past_the_end : slice (lit ":02") 1 7 = lit "02".
Proof. reflexivity. Qed.

Example slice_negative_index : slice (lit "abcdefghij") 2 (-3) = lit "cdefg".
Proof. reflexivity. Qed.

Example strip_both_ends : strip (lit "  :00 1 ") = lit ":00 1".
Proof. reflexivity. Qed.

Example checksum_of_end_record : compute_checksum 0 0 0x01 [] = 0xFF.
Proof. reflexivity. Qed.

Example ext_record_of_segment_1 : gen_ext_record 1 = lit ":020000040001F9".
Proof. reflexivity. Qed.

(** Lower-case digits are read, and written back in upper case. *)
Example lower_case_is_not_kept :
  (encode <$> match decode (lit ":010000000aF5") with
              | Ok r => Some r
              | Raise _ => None
              end)
  = Some (lit ":010000000AF5").
Proof. reflexivity. Qed.

(** ** Arithmetic of the bit operations *)

Lemma land_byte (x : Z) : Z.land x 0xFF = x mod 256.
Proof. change 0xFF with (Z.ones 8). by rewrite Z.land_ones. Qed.

Lemma land_word (x : Z) : Z.land x 0xFFFF = x mod 65536.
Proof. change 0xFFFF with (Z.ones 16). by rewrite Z.land_ones. Qed.

Lemma shiftr_byte (x : Z) : Z.shiftr x 8 = x / 256.
Proof. by rewrite Z.shiftr_div_pow2. Qed.

Lemma shiftr_word (x : Z) : Z.shiftr x 16 = x / 65536.
Proof. by rewrite Z.shiftr_div_pow2. Qed.

Lemma lnot_succ (x : Z) : Z.lnot x + 1 = - x.
Proof. unfold Z.lnot. lia. Qed.

Lemma compute_checksum_field_sum bc off ty bytes :
  compute_checksum bc off ty bytes = (- field_sum bc off ty bytes) mod 256.
Proof.
  unfold compute_checksum, field_sum.
  by rewrite lnot_succ, !land_byte, shiftr_byte.
Qed.

Lemma checksum_closes bc off ty bytes :
  (field_sum bc off ty bytes + compute_checksum bc off ty bytes) mod 256 = 0.
Proof.
  rewrite compute_checksum_field_sum.
  rewrite Zplus_mod_idemp_r. by rewrite Z.add_opp_diag_r.
Qed.

Lemma chunk_len_bounds max_addr cur :
  cur <= max_addr ->
  1 <= Z.min (16 - Z.land cur 0xFFFF mod 16) (max_addr - cur + 1) <= 16.
Proof.
  intros Hle. rewrite land_word.
  pose proof (Z.mod_pos_bound (cur mod 65536) 16). lia.
Qed.

(** ** The smallest and the greatest key *)

Lemma foldl_min_spec ks k :
  foldl Z.min k ks ∈ k :: ks ∧ Forall (fun x => foldl Z.min k ks <= x) (k :: ks).
Proof.
  revert k. induction ks as [|a ks IH]; intros k; simpl.
  - split; [set_solver | repeat constructor; lia].
  - destruct (IH (Z.min k a)) as [Hin Hall]. clear IH. split.
    + apply elem_of_cons in Hin as [Heq | Hin].
      * rewrite Heq. destruct (Z.min_spec k a) as [[_ ->] | [_ ->]]; set_solver.
      * set_solver.
    + inversion Hall as [|x l Hx Hl]; subst.
      constructor; [lia |]. constructor; [lia | done].
Qed.

Lemma foldl_max_spec ks k :
  foldl Z.max k ks ∈ k :: ks ∧ Forall (fun x => x <= foldl Z.max k ks) (k :: ks).
Proof.
  revert k. induction ks as [|a ks IH]; intros k; simpl.
  - split; [set_solver | repeat constructor; lia].
  - destruct (IH (Z.max k a)) as [Hin Hall]. clear IH. split.
    + apply elem_of_cons in Hin as [Heq | Hin].
      * rewrite Heq. destruct (Z.max_spec k a) as [[_ ->] | [_ ->]]; set_solver.
      * set_solver.
    + inversion Hall as [|x l Hx Hl]; subst.
      constructor; [lia |]. constructor; [lia | done].
Qed.

Lemma elem_of_keys (d : gmap Z Z) (k : Z) :
  k ∈ (map_to_list d).*1 ↔ is_Some (d !! k).
Proof.
  rewrite list_elem_of_fmap. split.
  - intros [[k' v] [-> Hin]]. apply elem_of_map_to_list in Hin. by exists v.
  - intros [v Hv]. exists (k, v). split; [done |]. by apply elem_of_map_to_list.
Qed.

Lemma min_key_spec (d : gmap Z Z) (lo : Z) :
  min_key d = Some lo ->
  is_Some (d !! lo) ∧ ∀ k, is_Some (d !! k) -> lo <= k.
Proof.
  unfold min_key. destruct ((map_to_list d).*1) as [|k ks] eqn:E; [done |].
  intros [= <-]. destruct (foldl_min_spec ks k) as [Hin Hall]. split.
  - apply elem_of_keys. by rewrite E.
  - intros k' Hk'. apply elem_of_keys in Hk'. rewrite E in Hk'.
    rewrite Forall_forall in Hall. by apply Hall.
Qed.

Lemma max_key_spec (d : gmap Z Z) (hi : Z) :
  max_key d = Some hi ->
  is_Some (d !! hi) ∧ ∀ k, is_Some (d !! k) -> k <= hi.
Proof.
  unfold max_key. destruct ((map_to_list d).*1) as [|k ks] eqn:E; [done |].
  intros [= <-]. destruct (foldl_max_spec ks k) as [Hin Hall]. split.
  - apply elem_of_keys. by rewrite E.
  - intros k' Hk'. apply elem_of_keys in Hk'. rewrite E in Hk'.
    rewrite Forall_forall in Hall. by apply Hall.
Qed.

Lemma min_key_le_max_key (d : gmap Z Z) (lo hi : Z) :
  min_key d = Some lo -> max_key d = Some hi -> lo <= hi.
Proof.
  intros Hlo Hhi. apply min_key_spec in Hlo as [_ Hlo].
  apply max_key_spec in Hhi as [Hhi _]. by apply Hlo.
Qed.

Lemma keys_nonempty (d : gmap Z Z) :
  d ≠ ∅ -> ∃ lo hi, min_key d = Some lo ∧ max_key d = Some hi.
Proof.
  intros Hne. unfold min_key, max_key.
  destruct ((map_to_list d).*1) as [|k ks] eqn:E; [|eauto].
  apply fmap_nil_inv in E. by apply map_to_list_empty_iff in E.
Qed.

Lemma keys_empty : min_key ∅ = None ∧ max_key ∅ = None.
Proof. unfold min_key, max_key. by rewrite map_to_list_empty. Qed.

(** ** The loop of [write_data_as_hex] and its trace *)

(** A chunk stays within one block of 16 addresses, hence within one
    segment of 64K. *)
Lemma chunk_same_block hi cur :
  cur <= hi ->
  let len := Z.min (16 - Z.land cur 0xFFFF mod 16) (hi - cur + 1) in
  (cur + len - 1) / 16 = cur / 16
  ∧ Z.shiftr (cur + len - 1) 16 = Z.shiftr cur 16.
Proof.
  intros Hle len. pose proof (chunk_len_bounds hi cur Hle) as Hb.
  assert (len <= 16 - cur mod 16) as Hl.
  { subst len. rewrite land_word.
    replace ((cur mod 65536) mod 16) with (cur mod 16); [lia |].
    symmetry. apply Z.mod_mod_divide. by exists 4096. }
  fold len in Hb. clearbody len.
  assert ((cur + len - 1) / 16 = cur / 16) as H16.
  { pose proof (Z.mod_pos_bound cur 16).
    symmetry. apply Z.div_unique with (r := cur mod 16 + len - 1); [lia |].
    pose proof (Z.div_mod cur 16). lia. }
  split; [done |]. rewrite !shiftr_word. change 65536 with (16 * 4096).
  rewrite <- !Z.div_div by lia. by rewrite H16.
Qed.





Lemma chunk_ok_weaken merged lo lo' hi e :
  lo' <= lo -> chunk_ok merged lo hi e -> chunk_ok merged lo' hi e.
Proof. destruct e; cbn; [done |]. intros ? (? & ?). split; [lia | done]. Qed.

(** The length of the chunk at [cur], named [len], with its bounds. *)
Ltac chunk_facts hi cur Hle len :=
  pose proof (chunk_len_bounds hi cur Hle);
  pose proof (Z.le_min_r (16 - Z.land cur 0xFFFF mod 16) (hi - cur + 1));
  set (len := Z.min _ _) in *; clearbody len.

Section while_loop.
Context (merged : gmap Z Z) (hi : Z).

Lemma loop_body_current s :
  current (loop_body merged hi s)
  = current s
    + Z.min (16 - Z.land (current s) 0xFFFF mod 16) (hi - current s + 1).
Proof. unfold loop_body. by destruct (decide _). Qed.

Lemma loop_body_last s :
  last_ext_addr (loop_body merged hi s) = Some (Z.shiftr (current s) 16).
Proof. unfold loop_body. by destruct (decide _) as [<- |]. Qed.

Lemma loop_body_records s f :
  current s <= hi ->
  records (loop_body merged hi s)
  ++ (render <$> walk f merged hi (current (loop_body merged hi s))
                   (last_ext_addr (loop_body merged hi s)))
  = records s ++ (render <$> walk (S f) merged hi (current s) (last_ext_addr s)).
Proof.
  intros Hle. rewrite loop_body_current, loop_body_last.
  cbn [walk]. destruct (Z.leb_spec (current s) hi); [| lia].
  unfold loop_body. destruct (decide _); cbn [current records last_ext_addr];
    rewrite ?fmap_app, ?fmap_cons, <- ?app_assoc; reflexivity.
Qed.

(** The text the loop appends is the trace, formatted. *)
Lemma while_loop_walk fuel s s' :
  while_loop fuel merged hi s = Some s' ->
  records s'
  = records s ++ (render <$> walk fuel merged hi (current s) (last_ext_addr s)).
Proof.
  revert s. induction fuel as [|f IH]; intros s; cbn [while_loop].
  - destruct (Z.leb_spec (current s) hi); [done |].
    intros [= <-]. cbn. by rewrite app_nil_r.
  - destruct (Z.leb_spec (current s) hi) as [Hle | Hgt].
    + intros H. rewrite (IH _ H). by apply loop_body_records.
    + intros [= <-]. cbn [walk].
      destruct (Z.leb_spec (current s) hi); [lia |].
      cbn. by rewrite app_nil_r.
Qed.

(** The loop ends within as many turns as there are addresses left. *)
Lemma while_loop_total fuel s :
  hi - current s + 1 <= Z.of_nat fuel ->
  is_Some (while_loop fuel merged hi s).
Proof.
  revert s. induction fuel as [|f IH]; intros s Hf; cbn [while_loop];
    destruct (Z.leb_spec (current s) hi) as [Hle | Hgt]; eauto; [lia |].
  apply IH. rewrite loop_body_current.
  pose proof (chunk_len_bounds hi (current s) Hle). lia.
Qed.

Lemma walk_chunk_ok fuel cur last :
  Forall (chunk_ok merged cur hi) (walk fuel merged hi cur last).
Proof.
  revert cur last. induction fuel as [|f IH]; intros cur last; cbn [walk].
  - constructor.
  - destruct (Z.leb_spec cur hi) as [Hle | Hgt]; [| constructor].
    apply Forall_app. split.
    + destruct (decide _); repeat constructor.
    + constructor.
      * cbn. repeat split; (done || lia).
      * eapply Forall_impl; [apply IH |]. intros e. apply chunk_ok_weaken.
        pose proof (chunk_len_bounds hi cur Hle). lia.
Qed.

(** The chunks tile the range of addresses, in order. *)
Lemma walk_chunk_addrs fuel cur last :
  hi - cur + 1 <= Z.of_nat fuel ->
  concat (chunk_addrs <$> walk fuel merged hi cur last)
  = seqZ cur (hi - cur + 1).
Proof.
  revert cur last. induction fuel as [|f IH]; intros cur last Hf; cbn [walk].
  - cbn. rewrite seqZ_nil; [done | lia].
  - destruct (Z.leb_spec cur hi) as [Hle | Hgt].
    2:{ cbn. rewrite seqZ_nil; [done | lia]. }
    chunk_facts hi cur Hle len.
    rewrite fmap_app, concat_app, fmap_cons, concat_cons. cbn [chunk_addrs].
    rewrite IH by lia.
    replace (concat (chunk_addrs <$> _)) with (@nil Z)
      by (destruct (decide _); reflexivity).
    cbn [app].
    replace (hi - cur + 1) with (len + (hi - (cur + len) + 1)) by lia.
    rewrite (seqZ_app cur len) by lia. reflexivity.
Qed.

(** The bytes of the chunks, in order, are the values of the dictionary
    at the addresses of the range, and 0 where it has none. *)
Lemma walk_chunk_bytes fuel cur last :
  hi - cur + 1 <= Z.of_nat fuel ->
  concat (chunk_bytes <$> walk fuel merged hi cur last)
  = (fun a => dict_get merged a 0) <$> seqZ cur (hi - cur + 1).
Proof.
  revert cur last. induction fuel as [|f IH]; intros cur last Hf; cbn [walk].
  - cbn. rewrite seqZ_nil; [done | lia].
  - destruct (Z.leb_spec cur hi) as [Hle | Hgt].
    2:{ cbn. rewrite seqZ_nil; [done | lia]. }
    chunk_facts hi cur Hle len.
    rewrite fmap_app, concat_app, fmap_cons, concat_cons. cbn [chunk_bytes].
    rewrite IH by lia.
    replace (concat (chunk_bytes <$> _)) with (@nil Z)
      by (destruct (decide _); reflexivity).
    cbn [app].
    replace (hi - cur + 1) with (len + (hi - (cur + len) + 1)) by lia.
    rewrite (seqZ_app cur len) by lia. rewrite fmap_app. f_equal.
    replace (seqZ cur len) with (Z.add cur <$> seqZ 0 len)
      by (rewrite fmap_add_seqZ; f_equal; lia).
    by rewrite <- list_fmap_compose.
Qed.




End while_loop.

Lemma output_records_trace merged lo hi :
  min_key merged = Some lo -> max_key merged = Some hi ->
  output_records merged lo hi
  = Some ((render <$> trace merged) ++ [lit ":00000001FF"]).
Proof.
  intros Hlo Hhi. unfold output_records, trace. rewrite Hlo, Hhi.
  destruct (while_loop_total merged hi (Z.to_nat (hi - lo + 1))
              (WState lo None [])) as [s Hs].
  { cbn. pose proof (min_key_le_max_key _ _ _ Hlo Hhi). lia. }
  rewrite Hs. by rewrite (while_loop_walk _ _ _ _ _ Hs).
Qed.

(** On a dictionary that is not empty, [write_data_as_hex] ends and writes
    the formatted trace and the end-of-file record. *)
Lemma write_data_as_hex_trace merged output_file (fs : filesystem) :
  merged ≠ ∅ ->
  write_data_as_hex merged output_file fs
  = Some (Ok tt, <[output_file := file_of_trace (trace merged)]> fs).
Proof.
  intros Hne. destruct (keys_nonempty merged Hne) as (lo & hi & Hlo & Hhi).
  unfold write_data_as_hex. rewrite Hlo, Hhi.
  by rewrite (output_records_trace _ _ _ Hlo Hhi).
Qed.

(** ** The merge *)

Lemma merge_images_snoc images d :
  merge_images (images ++ [d]) = dict_update (merge_images images) d.
Proof. unfold merge_images. by rewrite foldl_app. Qed.

Lemma latest_snoc images d a :
  latest (images ++ [d]) a
  = match d !! a with Some v => Some v | None => latest images a end.
Proof.
  induction images as [|d' images IH]; cbn.
  - by destruct (d !! a).
  - rewrite IH. by destruct (d !! a), (latest images a).
Qed.

Lemma merge_images_latest images a : merge_images images !! a = latest images a.
Proof.
  induction images as [|d images IH] using rev_ind.
  - apply lookup_empty.
  - rewrite merge_images_snoc, latest_snoc. unfold dict_update.
    rewrite lookup_union. rewrite IH.
    by destruct (d !! a), (latest images a).
Qed.

(** The loop of [main] folds the images of the files into the
    accumulator. *)
Lemma merge_files_images (fs : filesystem) files images acc :
  Forall2 (fun file d => parse_intel_hex fs file = Ok d) files images ->
  merge_files fs files acc = Ok (foldl dict_update acc images).
Proof.
  intros H. revert acc. induction H as [|file d files images Hd _ IH];
    intros acc; cbn; [done |].
  rewrite Hd. cbn. apply IH.
Qed.

(** C1. The merge folds the images from left to right, and the merged
    image maps every address to its value in the latest image that has the
    address. Hence the merges of [A; B] and of [B; A] agree wherever at
    most one of the two images has the address, and where both have it the
    image given later wins. *)
Theorem merge_last_writer_wins (fs : filesystem) (files : list string)
    (images : list (gmap Z Z)) (A B : gmap Z Z) (a : Z) :
  (Forall2 (fun file d => parse_intel_hex fs file = Ok d) files images ->
   merge_files fs files ∅ = Ok (merge_images images))
  ∧ merge_images images !! a = latest images a
  ∧ (¬ (is_Some (A !! a) ∧ is_Some (B !! a)) ->
     merge_images [A; B] !! a = merge_images [B; A] !! a)
  ∧ (is_Some (A !! a) -> is_Some (B !! a) ->
     merge_images [A; B] !! a = B !! a ∧ merge_images [B; A] !! a = A !! a).
Proof.
  split; [apply merge_files_images |].
  split; [apply merge_images_latest |].
  rewrite !merge_images_latest. cbn.
  split.
  - intros Hn. destruct (A !! a) eqn:EA, (B !! a) eqn:EB; try done.
    exfalso. apply Hn. eauto.
  - intros [x ->] [y ->]. done.
Qed.

Lemma merge_last_writer_wins_witness :
  merge_files fs_AB ["a.hex"; "b.hex"]%string ∅
  = Ok (merge_images [imageA; imageB])
  ∧ merge_images [imageA; imageB] !! 5 = Some 0xFF
  ∧ merge_images [imageA; imageB] !! 0 = merge_images [imageB; imageA] !! 0
  ∧ merge_images [imageB; imageA] !! 5 = Some 0x20.
Proof.
  destruct (merge_last_writer_wins fs_AB ["a.hex"; "b.hex"]%string
              [imageA; imageB] imageA imageB 5) as (H1 & H2 & _ & H4).
  destruct (merge_last_writer_wins fs_AB [] [] imageA imageB 0)
    as (_ & _ & H3 & _).
  split.
  { apply H1. repeat constructor; by vm_compute. }
  split; [by rewrite H2 |].
  split.
  { apply H3. intros [_ [v Hv]]. by vm_compute in Hv. }
  destruct H4 as [_ ->]; [by eexists | by eexists | done].
Defined.

(** ** Emission *)

(** C8. Emission of an empty image raises the error of the empty image
    (a [ValueError] with the text "No data to write") and leaves the file
    system as it was: no record is made and no file is written. *)
Theorem write_empty_image_raises (output_file : string) (fs : filesystem) :
  write_data_as_hex ∅ output_file fs
  = Some (Raise (ValueError "No data to write"), fs).
Proof.
  unfold write_data_as_hex. by destruct keys_empty as [-> _].
Qed.

Lemma elem_of_file_of_trace line t :
  line ∈ file_of_trace t ->
  (∃ e, e ∈ t ∧ line = render e ++ [newline])
  ∨ line = lit ":00000001FF" ++ [newline].
Proof.
  unfold file_of_trace. rewrite list_elem_of_fmap.
  intros (rec & -> & Hin). apply elem_of_app in Hin as [Hin | Hin].
  - apply list_elem_of_fmap in Hin as (e & -> & He). left. eauto.
  - apply list_elem_of_singleton in Hin as ->. by right.
Qed.

Lemma trace_chunk_ok merged lo hi :
  min_key merged = Some lo -> max_key merged = Some hi ->
  Forall (chunk_ok merged lo hi) (trace merged).
Proof. intros Hlo Hhi. unfold trace. rewrite Hlo, Hhi. apply walk_chunk_ok. Qed.

(** C2. In every record of the output, of whichever type, the checksum is
    the two's complement, cut to 8 bits, of the sum of the byte count, the
    two bytes of the offset, the record type and the data bytes; so the sum
    of all these and the checksum is 0 modulo 256. *)
Theorem emitted_checksums (merged : gmap Z Z) (output_file : string)
    (fs : filesystem) :
  merged ≠ ∅ ->
  ∃ fs' lines,
    write_data_as_hex merged output_file fs = Some (Ok tt, fs')
    ∧ fs' !! output_file = Some lines
    ∧ ∀ line, line ∈ lines ->
        ∃ bc off ty bytes chk,
          line = format_record bc off ty bytes chk ++ [newline]
          ∧ (ty = 0x00 ∨ ty = 0x04 ∨ ty = 0x01)
          ∧ bc = Z.of_nat (length bytes)
          ∧ 0 <= off < 65536
          ∧ chk = compute_checksum bc off ty bytes
          ∧ chk = (- (bc + off / 256 + off mod 256 + ty + sum bytes)) mod 256
          ∧ 0 <= chk < 256
          ∧ (bc + off / 256 + off mod 256 + ty + sum bytes + chk) mod 256 = 0.
Proof.
  intros Hne. destruct (keys_nonempty merged Hne) as (lo & hi & Hlo & Hhi).
  eexists _, _. split; [by apply write_data_as_hex_trace |].
  split; [apply lookup_insert_eq |].
  assert (∀ bc off ty bytes, 0 <= off < 65536 ->
    let chk := compute_checksum bc off ty bytes in
    chk = (- (bc + off / 256 + off mod 256 + ty + sum bytes)) mod 256
    ∧ 0 <= chk < 256
    ∧ (bc + off / 256 + off mod 256 + ty + sum bytes + chk) mod 256 = 0) as Hsum.
  { intros bc off ty bytes Hoff chk.
    pose proof (checksum_closes bc off ty bytes) as Hc.
    pose proof (compute_checksum_field_sum bc off ty bytes) as Hf.
    unfold field_sum in *. fold chk in Hc, Hf.
    assert (off / 256 mod 256 = off / 256) as Hhigh.
    { apply Z.mod_small. split; [apply Z.div_pos; lia |].
      apply Z.div_lt_upper_bound; lia. }
    rewrite Hhigh in *. repeat split; try done; rewrite Hf.
    all: apply Z.mod_pos_bound; lia. }
  intros line Hin. apply elem_of_file_of_trace in Hin as [(e & He & ->) | ->].
  - pose proof (trace_chunk_ok merged lo hi Hlo Hhi) as Hok.
    rewrite Forall_forall in Hok. specialize (Hok e He).
    destruct e as [ext | c len off bytes chk]; cbn in Hok |- *.
    + eexists 2, 0, 0x04, [_; _], _. split; [reflexivity |].
      split; [auto |]. split; [done |]. split; [lia |].
      split; [done |]. by apply Hsum.
    + destruct Hok as (Hc & -> & Hl & -> & ->).
      pose proof (chunk_len_bounds hi c ltac:(lia)) as Hb. rewrite <- Hl in Hb.
      eexists len, _, 0x00, _, _. split; [reflexivity |].
      split; [auto |].
      split; [rewrite length_fmap, length_seqZ; lia |].
      assert (0 <= Z.land c 0xFFFF < 65536) as Hoff.
      { rewrite land_word. apply Z.mod_pos_bound. lia. }
      split; [done |]. split; [done |]. by apply Hsum.
  - eexists 0, 0, 0x01, [], 0xFF. split; [reflexivity |].
    split; [auto |]. split; [reflexivity |]. split; [lia |].
    split; [reflexivity |]. split; [reflexivity |]. split; [lia | reflexivity].
Qed.

Lemma emitted_checksums_witness :
  ∃ fs' lines,
    write_data_as_hex imageA "out.hex" ∅ = Some (Ok tt, fs')
    ∧ fs' !! "out.hex"%string = Some lines
    ∧ ∀ line, line ∈ lines ->
        ∃ bc off ty bytes chk,
          line = format_record bc off ty bytes chk ++ [newline]
          ∧ (ty = 0x00 ∨ ty = 0x04 ∨ ty = 0x01)
          ∧ bc = Z.of_nat (length bytes)
          ∧ 0 <= off < 65536
          ∧ chk = compute_checksum bc off ty bytes
          ∧ chk = (- (bc + off / 256 + off mod 256 + ty + sum bytes)) mod 256
          ∧ 0 <= chk < 256
          ∧ (bc + off / 256 + off mod 256 + ty + sum bytes + chk) mod 256 = 0.
Proof.
  apply (emitted_checksums imageA "out.hex" ∅).
  intros H. apply (f_equal (fun d : gmap Z Z => d !! 0)) in H. by vm_compute in H.
Defined.

Lemma trace_chunk_addrs merged lo hi :
  min_key merged = Some lo -> max_key merged = Some hi ->
  concat (chunk_addrs <$> trace merged) = seqZ lo (hi - lo + 1).
Proof.
  intros Hlo Hhi. unfold trace. rewrite Hlo, Hhi. apply walk_chunk_addrs.
  pose proof (min_key_le_max_key _ _ _ Hlo Hhi). lia.
Qed.

Lemma trace_chunk_bytes merged lo hi :
  min_key merged = Some lo -> max_key merged = Some hi ->
  concat (chunk_bytes <$> trace merged)
  = (fun a => dict_get merged a 0) <$> seqZ lo (hi - lo + 1).
Proof.
  intros Hlo Hhi. unfold trace. rewrite Hlo, Hhi. apply walk_chunk_bytes.
  pose proof (min_key_le_max_key _ _ _ Hlo Hhi). lia.
Qed.

Lemma nonempty_of_min_key (merged : gmap Z Z) lo :
  min_key merged = Some lo -> merged ≠ ∅.
Proof. intros H ->. destruct keys_empty as [E _]. congruence. Qed.

(** C4. Every address [a] of the range from the smallest to the greatest
    address of the image lies in one data record of the output, at the
    place [a - cur] of the record that starts at [cur]; the byte there is
    the value of the image at [a], and the fill byte 0 when the image has
    no value at [a]. *)
Theorem gap_fill (merged : gmap Z Z) (lo hi a : Z) (output_file : string)
    (fs : filesystem) :
  min_key merged = Some lo -> max_key merged = Some hi -> lo <= a <= hi ->
  write_data_as_hex merged output_file fs
  = Some (Ok tt, <[output_file := file_of_trace (trace merged)]> fs)
  ∧ concat (chunk_bytes <$> trace merged)
    = (fun a => dict_get merged a 0) <$> seqZ lo (hi - lo + 1)
  ∧ ∃ cur len off bytes chk,
      DataRec cur len off bytes chk ∈ trace merged
      ∧ cur <= a < cur + len
      ∧ off = Z.land cur 0xFFFF
      ∧ bytes !! Z.to_nat (a - cur)
        = Some (match merged !! a with Some v => v | None => 0x00 end).
Proof.
  intros Hlo Hhi Ha.
  split; [apply write_data_as_hex_trace; by eapply nonempty_of_min_key |].
  split; [by apply trace_chunk_bytes |].
  assert (In a (concat (chunk_addrs <$> trace merged))) as Hin.
  { rewrite (trace_chunk_addrs merged lo hi) by done.
    apply list_elem_of_In, elem_of_seqZ. lia. }
  apply in_concat in Hin as (l & Hl & Hal).
  apply list_elem_of_In, list_elem_of_fmap in Hl as (e & -> & He).
  pose proof (trace_chunk_ok merged lo hi Hlo Hhi) as Hok.
  rewrite Forall_forall in Hok. specialize (Hok e He).
  destruct e as [x | cur len off bytes chk]; cbn in Hal; [done |].
  apply list_elem_of_In, elem_of_seqZ in Hal.
  destruct Hok as (_ & Hoff & _ & Hbytes & _).
  exists cur, len, off, bytes, chk. repeat split; try done; try lia.
  rewrite Hbytes, list_lookup_fmap, lookup_seqZ_lt by lia. cbn.
  unfold dict_get. replace (cur + (0 + Z.of_nat (Z.to_nat (a - cur)))) with a by lia.
  by destruct (merged !! a).
Qed.

Lemma gap_fill_witness :
  ∃ cur len off bytes chk,
    DataRec cur len off bytes chk ∈ trace imageA
    ∧ cur <= 3 < cur + len
    ∧ off = Z.land cur 0xFFFF
    ∧ bytes !! Z.to_nat (3 - cur)
      = Some (match imageA !! 3 with Some v => v | None => 0x00 end).
Proof.
  apply (gap_fill imageA 0 5 3 "out.hex" ∅); [reflexivity | reflexivity | lia].
Defined.

(** C5. Every data record of the output starts at an address [cur] of the
    range and has the length
    [min (16 - offset mod 16) (max_addr - cur + 1)], [offset] being the low
    16 bits of [cur]; so it ends in the block of 16 addresses it starts in
    and not after [max_addr]. The records follow each other without a gap
    from [min_addr] to [max_addr]. *)
Theorem chunk_lengths (merged : gmap Z Z) (lo hi : Z) (output_file : string)
    (fs : filesystem) :
  min_key merged = Some lo -> max_key merged = Some hi ->
  write_data_as_hex merged output_file fs
  = Some (Ok tt, <[output_file := file_of_trace (trace merged)]> fs)
  ∧ concat (chunk_addrs <$> trace merged) = seqZ lo (hi - lo + 1)
  ∧ ∀ cur len off bytes chk,
      DataRec cur len off bytes chk ∈ trace merged ->
      lo <= cur <= hi
      ∧ off = Z.land cur 0xFFFF
      ∧ len = Z.min (16 - off mod 16) (hi - cur + 1)
      ∧ Z.of_nat (length bytes) = len
      ∧ 1 <= len <= 16
      ∧ (cur + len - 1) / 16 = cur / 16
      ∧ cur + len - 1 <= hi.
Proof.
  intros Hlo Hhi.
  split; [apply write_data_as_hex_trace; by eapply nonempty_of_min_key |].
  split; [by apply trace_chunk_addrs |].
  intros cur len off bytes chk He.
  pose proof (trace_chunk_ok merged lo hi Hlo Hhi) as Hok.
  rewrite Forall_forall in Hok. specialize (Hok _ He).
  destruct Hok as (Hc & -> & Hl & -> & _).
  pose proof (chunk_len_bounds hi cur ltac:(lia)) as Hb.
  destruct (chunk_same_block hi cur ltac:(lia)) as [H16 _].
  rewrite <- Hl in Hb, H16.
  repeat split; try done; try lia.
  rewrite length_fmap, length_seqZ. lia.
Qed.

Lemma chunk_lengths_witness :
  (min_key imageA = Some 0 ∧ max_key imageA = Some 5)
  ∧ concat (chunk_addrs <$> trace imageA) = seqZ 0 (5 - 0 + 1)
  ∧ 6 = Z.min (16 - Z.land 0 0xFFFF mod 16) (5 - 0 + 1)
  ∧ (0 + 6 - 1) / 16 = 0 / 16.
Proof.
  split; [by vm_compute |].
  destruct (chunk_lengths imageA 0 5 "out.hex" ∅) as (_ & H1 & H2);
    [reflexivity | reflexivity |].
  split; [exact H1 |].
  destruct (H2 0 6 0 [0x10; 0; 0; 0; 0; 0x20] 0xCA) as (_ & E & H3 & _ & _ & H4 & _).
  { replace (trace imageA)
      with [ExtRec 0; DataRec 0 6 0 [0x10; 0; 0; 0; 0; 0x20] 0xCA]
      by (by vm_compute).
    repeat constructor. }
  split; [by rewrite <- E | exact H4].
Defined.





(** ** The scenario of the two files *)

(** C3, as stated, fails: the output for the merge of the two images is
    not a data record followed by the end-of-file record and nothing else,
    whatever the checksum of the data record. *)
Lemma scenario_not_two_records :
  ¬ ∃ fs' chk,
      write_data_as_hex (merge_images [imageA; imageB]) "out.hex" ∅
      = Some (Ok tt, fs')
      ∧ fs' !! "out.hex"%string
        = Some [format_record 6 0x0000 0x00 [0x10; 0; 0; 0; 0; 0xFF] chk
                ++ [newline];
                text_line ":00000001FF"].
Proof.
  intros (fs' & chk & Hw & Hf).
  assert (write_data_as_hex (merge_images [imageA; imageB]) "out.hex" ∅
          = Some (Ok tt, <["out.hex"%string :=
                     [text_line ":020000040000FA";
                      text_line ":060000001000000000FFEB";
                      text_line ":00000001FF"]]> ∅)) as Hc by (by vm_compute).
  rewrite Hc in Hw. injection Hw as <-.
  rewrite lookup_insert_eq in Hf. discriminate Hf.
Qed.

(** C3, amended. File A sets 0x10 at 0x0000 and 0x20 at 0x0005, file B,
    merged after A, sets 0xFF at 0x0005. The merge maps 0x0000 to 0x10 and
    0x0005 to 0xFF, and the output is the extended linear address record
    of segment 0, one data record of length 6 with the bytes
    10 00 00 00 00 FF, and the end-of-file record, and nothing else. *)
Theorem scenario_output :
  parse_intel_hex fs_AB "a.hex" = Ok imageA
  ∧ parse_intel_hex fs_AB "b.hex" = Ok imageB
  ∧ merge_images [imageA; imageB] = <[0x0005 := 0xFF]> (<[0x0000 := 0x10]> ∅)
  ∧ trace (merge_images [imageA; imageB])
    = [ExtRec 0; DataRec 0 6 0 [0x10; 0; 0; 0; 0; 0xFF] 0xEB]
  ∧ write_data_as_hex (merge_images [imageA; imageB]) "out.hex" ∅
    = Some (Ok tt, <["out.hex"%string :=
               [text_line ":020000040000FA";
                text_line ":060000001000000000FFEB";
                text_line ":00000001FF"]]> ∅)
  ∧ main ["a.hex"; "b.hex"]%string "out.hex" fs_AB
    = Some (Ok tt, <["out.hex"%string :=
               [text_line ":020000040000FA";
                text_line ":060000001000000000FFEB";
                text_line ":00000001FF"]]> fs_AB).
Proof. repeat split; by vm_compute. Qed.

(** ** Slices *)

Lemma slice_nonneg (s : str) lo hi :
  0 <= lo -> 0 <= hi ->
  slice s lo hi = take (Z.to_nat hi - Z.to_nat lo) (drop (Z.to_nat lo) s).
Proof.
  intros Hlo Hhi. unfold slice, slice_index.
  destruct (Z.ltb_spec lo 0), (Z.ltb_spec hi 0); try lia.
  set (n := length s).
  destruct (decide (n <= Z.to_nat lo)%nat) as [Hge | Hlt].
  - replace (Z.to_nat (Z.min (Z.of_nat n) (Z.max 0 lo))) with n by lia.
    by rewrite !drop_ge, !take_nil by (fold n; lia).
  - replace (Z.to_nat (Z.min (Z.of_nat n) (Z.max 0 lo))) with (Z.to_nat lo) by lia.
    destruct (decide (Z.to_nat hi <= n)%nat).
    + by replace (Z.to_nat (Z.min (Z.of_nat n) (Z.max 0 hi))) with (Z.to_nat hi) by lia.
    + replace (Z.to_nat (Z.min (Z.of_nat n) (Z.max 0 hi))) with n by lia.
      rewrite !take_ge; [done | |]; rewrite length_drop; fold n; lia.
Qed.

Lemma slice_short (s : str) lo hi :
  0 <= lo -> 0 <= hi -> Z.of_nat (length s) <= lo -> slice s lo hi = [].
Proof.
  intros. rewrite slice_nonneg by done. rewrite drop_ge by lia. apply take_nil.
Qed.

(** A slice that lies within the first part of a text does not see what
    is appended. *)
Lemma slice_app_l (p rest : str) lo hi :
  0 <= lo -> 0 <= hi <= Z.of_nat (length p) ->
  slice (p ++ rest) lo hi = slice p lo hi.
Proof.
  intros Hlo Hhi. rewrite !slice_nonneg by lia.
  destruct (decide (Z.to_nat lo <= length p)%nat).
  - rewrite drop_app_le by done. rewrite take_app_le; [done |].
    rewrite length_drop. lia.
  - replace (Z.to_nat hi - Z.to_nat lo)%nat with 0%nat by lia. done.
Qed.

(** ** Stripping *)

Lemma lstrip_app sp (l k : str) c :
  sp c = false -> ∃ l', lstrip sp (l ++ c :: k) = l' ++ c :: k.
Proof.
  intros Hc. induction l as [|x l IH]; cbn.
  - rewrite Hc. by exists [].
  - destruct (sp x); [done |]. by exists (x :: l).
Qed.

(** A text that starts and ends with characters that are not white space
    is kept by [strip], whatever follows it. *)
Lemma strip_app (c : ascii) (body : str) (d : ascii) (rest : str) :
  isspace c = false -> isspace d = false ->
  ∃ rest', strip ((c :: body ++ [d]) ++ rest) = (c :: body ++ [d]) ++ rest'.
Proof.
  intros Hc Hd. unfold strip. cbn [app lstrip]. rewrite Hc.
  change (c :: (body ++ [d]) ++ rest) with ((c :: body ++ [d]) ++ rest).
  rewrite rev_app_distr.
  change (c :: body ++ [d]) with ((c :: body) ++ [d]).
  rewrite (rev_app_distr (c :: body)). cbn [rev app].
  destruct (lstrip_app isspace (rev rest) (rev body ++ [c]) d Hd) as [l' ->].
  exists (rev l'). rewrite rev_app_distr. cbn [rev]. rewrite rev_app_distr.
  cbn [rev app]. rewrite rev_involutive. by rewrite <- !app_assoc.
Qed.


(** ** Hexadecimal digits *)

Lemma is_hex_facts (c : ascii) :
  is_hex c = true ->
  isspace c = false ∧ isspace_int c = false ∧ is_underscore c = false
  ∧ (ord c =? 43) = false ∧ (ord c =? 45) = false
  ∧ (ord c =? 120) = false ∧ (ord c =? 88) = false
  ∧ ∃ d, hex_value c = Some d ∧ 0 <= d < 16.
Proof.
  destruct c as [[] [] [] [] [] [] [] []]; intros H; vm_compute in H;
    try discriminate H; clear H; repeat split;
    match goal with
    | |- ∃ d, hex_value ?c = _ ∧ _ => exists (default 0 (hex_value c))
    end;
    (split; [reflexivity | vm_compute; split; easy]).
Qed.

Lemma is_upper_hex_facts (c : ascii) :
  is_upper_hex c = true ->
  is_hex c = true ∧ ∃ d, hex_value c = Some d ∧ 0 <= d < 16 ∧ hex_char d = c.
Proof.
  destruct c as [[] [] [] [] [] [] [] []]; intros H; vm_compute in H;
    try discriminate H; clear H; split; try reflexivity;
    match goal with
    | |- ∃ d, hex_value ?c = _ ∧ _ => exists (default 0 (hex_value c))
    end;
    (split; [reflexivity |]); (split; [vm_compute; split; easy | reflexivity]).
Qed.

Lemma forallb_upper_hex (ds : str) :
  forallb is_upper_hex ds = true -> forallb is_hex ds = true.
Proof.
  rewrite !forallb_forall. intros H c Hc. by apply is_upper_hex_facts, H.
Qed.

Lemma scan_digits_hex (ds : str) acc :
  forallb is_hex ds = true ->
  scan_digits ds false acc
  = Some (foldl (fun a c => 16 * a + default 0 (hex_value c)) acc ds, []).
Proof.
  revert acc. induction ds as [|c ds IH]; intros acc; cbn; [done |].
  intros [Hc Hds]%andb_prop.
  destruct (is_hex_facts c Hc) as (_ & _ & -> & _ & _ & _ & _ & d & -> & _).
  cbn. by apply IH.
Qed.

(** [int()] of a text of hexadecimal digits is its value. *)
Lemma int16_hex (ds : str) :
  ds ≠ [] -> forallb is_hex ds = true -> int16 ds = Some (hex_number ds).
Proof.
  destruct ds as [|c ds]; [done |]. intros _ Hall.
  pose proof Hall as [Hc Hds]%andb_prop.
  destruct (is_hex_facts c Hc) as (_ & Hsp & _ & H43 & H45 & _ & _ & d & Hd & _).
  unfold int16. cbn [lstrip]. rewrite Hsp. cbn [read_sign]. rewrite H43, H45.
  assert (skip_prefix (c :: ds) = c :: ds) as ->.
  { destruct ds as [|x ds]; [done |]. cbn.
    apply andb_prop in Hds as [Hx _].
    destruct (is_hex_facts x Hx) as (_ & _ & _ & _ & _ & -> & -> & _).
    by rewrite andb_false_r. }
  rewrite Hd. rewrite (scan_digits_hex _ _ Hall). cbn [forallb].
  unfold hex_number. by destruct (foldl _ _ _).
Qed.

Lemma int16_nil : int16 [] = None.
Proof. reflexivity. Qed.

Lemma forallb_Forall_true {A} (P : A -> bool) (l : list A) :
  forallb P l = true ↔ Forall (fun x => P x = true) l.
Proof.
  rewrite forallb_forall, Forall_forall.
  split; intros H x Hx; apply H; by apply list_elem_of_In.
Qed.

Lemma forallb_slice (P : ascii -> bool) (s : str) lo hi :
  0 <= lo -> 0 <= hi -> forallb P s = true -> forallb P (slice s lo hi) = true.
Proof.
  intros Hlo Hhi. rewrite !forallb_Forall_true, slice_nonneg by done.
  intros H. by apply Forall_take, Forall_drop.
Qed.

Lemma length_slice (s : str) lo hi :
  0 <= lo <= hi -> hi <= Z.of_nat (length s) ->
  Z.of_nat (length (slice s lo hi)) = hi - lo.
Proof.
  intros Hlo Hhi. rewrite slice_nonneg by lia.
  rewrite length_take, length_drop. lia.
Qed.

(** ** Formatting *)

Lemma fixed_hex_zero w : fixed_hex w 0 = replicate w "0"%char.
Proof.
  induction w as [|w IH]; [done |]. cbn [fixed_hex].
  change (0 / 16) with 0. rewrite IH.
  change [hex_char (0 mod 16)] with (replicate 1 "0"%char).
  rewrite <- replicate_add. by replace (w + 1)%nat with (S w) by lia.
Qed.

Lemma zfill_snoc w (s : str) c : zfill (S w) (s ++ [c]) = zfill w s ++ [c].
Proof.
  unfold zfill. rewrite length_app, app_assoc. cbn [length].
  by replace (S w - (length s + 1))%nat with (w - length s)%nat by lia.
Qed.

(** Padded to [w] digits, the digits of [n] are its [w] digits. *)
Lemma zfill_hex_digits fuel n w :
  0 <= n < 16 ^ Z.of_nat (S w) -> Z.log2 n < Z.of_nat fuel ->
  zfill (S w) (hex_digits fuel n) = fixed_hex (S w) n.
Proof.
  revert n w. induction fuel as [|f IH]; intros n w Hn Hf.
  { pose proof (Z.log2_nonneg n). lia. }
  cbn [hex_digits fixed_hex]. destruct (Z.ltb_spec n 16) as [Hlt | Hge].
  - rewrite Z.div_small, Z.mod_small, fixed_hex_zero by lia.
    unfold zfill. cbn [length]. by replace (S w - 1)%nat with w by lia.
  - destruct w as [|w].
    { change (16 ^ Z.of_nat 1) with 16 in Hn. lia. }
    rewrite zfill_snoc. f_equal. apply IH.
    + split; [apply Z.div_pos; lia |].
      apply Z.div_lt_upper_bound; [lia |].
      rewrite (Nat2Z.inj_succ (S w)), Z.pow_succ_r in Hn by lia. lia.
    + assert (Z.log2 (n / 16) < Z.log2 n); [| lia].
      change 16 with (2 ^ 4). rewrite <- Z.shiftr_div_pow2 by lia.
      rewrite Z.log2_shiftr by lia.
      assert (4 <= Z.log2 n) by (apply Z.log2_le_pow2; lia). lia.
Qed.

Lemma fmtX_fixed w n :
  0 <= n < 16 ^ Z.of_nat (S w) -> fmtX (S w) n = fixed_hex (S w) n.
Proof.
  intros Hn. unfold fmtX. destruct (Z.ltb_spec n 0); [lia |].
  unfold hex_upper. apply zfill_hex_digits; [done |].
  pose proof (Z.log2_nonneg n). lia.
Qed.

Lemma hex_number_snoc ds c :
  hex_number (ds ++ [c]) = 16 * hex_number ds + default 0 (hex_value c).
Proof. unfold hex_number. by rewrite foldl_app. Qed.




(** ** Reading a record line *)

Lemma slice_cons (c : ascii) (s : str) lo hi :
  1 <= lo -> 1 <= hi -> slice (c :: s) lo hi = slice s (lo - 1) (hi - 1).
Proof.
  intros Hlo Hhi. rewrite !slice_nonneg by lia.
  replace (Z.to_nat lo) with (S (Z.to_nat (lo - 1))) by lia.
  replace (Z.to_nat hi) with (S (Z.to_nat (hi - 1))) by lia.
  reflexivity.
Qed.

(** [int()] of a slice of digits that is not empty is its value. *)
Lemma int16_exn_slice (c : ascii) (digits : str) lo hi :
  forallb is_hex digits = true ->
  1 <= lo < hi -> hi <= Z.of_nat (length (c :: digits)) ->
  int16_exn (slice (c :: digits) lo hi)
  = Ok (hex_number (slice (c :: digits) lo hi)).
Proof.
  intros Hd Hlo Hhi. unfold int16_exn. rewrite int16_hex; [done | |].
  - intros E. apply (f_equal length) in E.
    pose proof (length_slice (c :: digits) lo hi ltac:(lia) Hhi).
    rewrite E in *. cbn in *. lia.
  - rewrite slice_cons by lia. apply forallb_slice; [lia | lia | done].
Qed.

Lemma read_fields_hex (c : ascii) (digits rest : str) :
  forallb is_hex digits = true -> 9 <= Z.of_nat (length (c :: digits)) ->
  let p := c :: digits in
  read_fields (p ++ rest)
  = Ok (hex_number (slice p 1 3), hex_number (slice p 3 7),
        hex_number (slice p 7 9),
        slice (p ++ rest) 9 (9 + hex_number (slice p 1 3) * 2)).
Proof.
  intros Hd Hl p. unfold read_fields.
  rewrite !(slice_app_l p rest) by (subst p; lia).
  subst p. rewrite !int16_exn_slice by (done || lia). reflexivity.
Qed.

(** The loop over the bytes of a data record stores what [read_bytes]
    reads. *)
Lemma store_bytes_read_bytes data_field base_addr idxs d :
  store_bytes data_field base_addr idxs d
  = bytes ← read_bytes data_field idxs;
    Ok (foldl (fun d '(i, b) => <[base_addr + i := b]> d) d (zip idxs bytes)).
Proof.
  revert d. induction idxs as [|i idxs IH]; intros d; cbn; [done |].
  destruct (int16_exn _) as [v | e]; cbn; [| done].
  rewrite IH. by destruct (read_bytes data_field idxs).
Qed.

Lemma int16_exn_pair (dd : str) i :
  forallb is_hex dd = true -> 0 <= i -> i * 2 + 2 <= Z.of_nat (length dd) ->
  int16_exn (slice dd (i * 2) (i * 2 + 2)) = Ok (byte_at dd i).
Proof.
  intros Hd Hi Hl. unfold int16_exn, byte_at. rewrite int16_hex; [done | |].
  - intros E. apply (f_equal length) in E.
    pose proof (length_slice dd (i * 2) (i * 2 + 2) ltac:(lia) Hl).
    rewrite E in *. cbn in *. lia.
  - apply forallb_slice; [lia | lia | done].
Qed.

Lemma store_bytes_hex (dd : str) base_addr idxs d :
  forallb is_hex dd = true ->
  Forall (fun i => 0 <= i ∧ i * 2 + 2 <= Z.of_nat (length dd)) idxs ->
  store_bytes dd base_addr idxs d = Ok (stored dd base_addr idxs d).
Proof.
  intros Hd Hall. revert d. induction Hall as [|i idxs [Hi Hl] _ IH];
    intros d; cbn; [done |].
  rewrite int16_exn_pair by done. cbn. apply IH.
Qed.


(** What is stored: the bytes of the record at its addresses, and the
    former values elsewhere. *)
Lemma stored_lookup (dd : str) base_addr (n : nat) d a :
  stored dd base_addr (seqZ 0 (Z.of_nat n)) d !! a
  = if decide (base_addr <= a < base_addr + Z.of_nat n)
    then Some (byte_at dd (a - base_addr)) else d !! a.
Proof.
  induction n as [|n IH].
  - cbn. destruct (decide _); [lia | done].
  - rewrite seqZ_S. unfold stored in *. rewrite foldl_app. cbn [foldl].
    destruct (decide (a = base_addr + Z.of_nat n)) as [-> | Hne].
    + clear IH. rewrite lookup_insert_eq. destruct (decide _); [| lia].
      do 2 f_equal. lia.
    + rewrite lookup_insert_ne by lia. rewrite IH.
      repeat destruct (decide _); (done || lia).
Qed.

Lemma range_in_field (dd : str) (n : Z) :
  2 * n <= Z.of_nat (length dd) ->
  Forall (fun i => 0 <= i ∧ i * 2 + 2 <= Z.of_nat (length dd)) (seqZ 0 n).
Proof. intros H. apply Forall_seqZ. lia. Qed.

Lemma valid_fields_inv (p : str) :
  valid_fields p = true ->
  ∃ c body d,
    p = c :: body ++ [d] ∧ ord c = 58 ∧ forallb is_hex (body ++ [d]) = true
    ∧ Z.of_nat (length p) = 9 + 2 * hex_number (slice p 1 3)
    ∧ 0 <= hex_number (slice p 1 3)
    ∧ (hex_number (slice p 7 9) = 0x04 -> hex_number (slice p 1 3) = 2).
Proof.
  destruct p as [|c digits]; [done |]. unfold valid_fields.
  intros [[[[Hc Hd]%andb_prop Hl9]%andb_prop Hl]%andb_prop Hela]%andb_prop.
  apply Z.eqb_eq in Hc. apply Z.leb_le in Hl9. apply Z.eqb_eq in Hl.
  destruct digits as [|x digits] using rev_ind; [cbn in Hl9; lia |].
  exists c, digits, x. repeat split; try done; [lia |].
  intros Hty. rewrite Hty in Hela. cbn in Hela. by apply Z.eqb_eq in Hela.
Qed.

(** The loop body on a line that is, once stripped, fields [p] followed
    by anything. *)
Lemma parse_line_fields (st : pstate) (raw p rest : str) :
  valid_fields p = true -> strip raw = p ++ rest ->
  parse_line st raw = Ok (record_outcome st p).
Proof.
  intros Hv Hs. destruct (valid_fields_inv p Hv)
    as (c & body & d & -> & Hc & Hd & Hl & Hbc & Hela).
  unfold parse_line. rewrite Hs. cbn [app]. rewrite Hc. cbn [Z.eqb Pos.eqb negb].
  change (c :: (body ++ [d]) ++ rest) with ((c :: body ++ [d]) ++ rest).
  rewrite (read_fields_hex c (body ++ [d]) rest Hd) by lia. cbn [mbind result_bind].
  unfold record_outcome. set (p := c :: body ++ [d]) in *.
  rewrite (slice_app_l p rest) by lia.
  assert (forallb is_hex (slice p 9 (9 + hex_number (slice p 1 3) * 2)) = true)
    as Hdf.
  { subst p. rewrite slice_cons by lia. apply forallb_slice; (done || lia). }
  pose proof (length_slice p 9 (9 + hex_number (slice p 1 3) * 2)
                ltac:(lia) ltac:(lia)) as Hldf.
  destruct (Z.eqb_spec (hex_number (slice p 7 9)) 4) as [Hty | Hty].
  - rewrite (Hela Hty) in *. cbn [Z.eqb Pos.eqb negb].
    unfold int16_exn. rewrite int16_hex; [reflexivity | | exact Hdf].
    intros E. rewrite E in Hldf. cbn in Hldf. lia.
  - destruct (Z.eqb_spec (hex_number (slice p 7 9)) 0);
      [| by destruct (_ =? 1)].
    rewrite store_bytes_hex; [reflexivity | done |]. apply range_in_field. lia.
Qed.

Lemma is_hex_last_not_space (body : str) (d : ascii) :
  forallb is_hex (body ++ [d]) = true -> isspace d = false.
Proof.
  rewrite forallb_app. intros [_ Hd]%andb_prop. cbn in Hd.
  rewrite andb_true_r in Hd. by apply is_hex_facts in Hd as [? _].
Qed.

Lemma mark_not_space (c : ascii) : ord c = 58 -> isspace c = false.
Proof. unfold isspace. intros ->. reflexivity. Qed.

(** C10. The parser reads no further than the data field: when the first
    [9 + 2 * byte_count] characters [p] of a line hold valid fields, the
    line is accepted whatever follows them (nothing, digits, or any other
    text), with the same result as the line without what follows; for a
    data record each byte of the data field is stored at its address. *)
Theorem checksum_ignored (st : pstate) (p rest : str) :
  valid_fields p = true ->
  parse_line st (p ++ rest) = Ok (record_outcome st p)
  ∧ parse_line st (p ++ rest) = parse_line st p
  ∧ (hex_number (slice p 7 9) = 0x00 ->
     let byte_count := hex_number (slice p 1 3) in
     let base_addr :=
       Z.shiftl (extended_addr st) 16 + hex_number (slice p 3 7) in
     ∃ d,
       record_outcome st p = Continue (PState d (extended_addr st))
       ∧ ∀ a, d !! a
              = if decide (base_addr <= a < base_addr + byte_count)
                then Some (byte_at (slice p 9 (9 + byte_count * 2))
                             (a - base_addr))
                else data st !! a).
Proof.
  intros Hv. destruct (valid_fields_inv p Hv)
    as (c & body & d & Hp & Hc & Hd & Hl & Hbc & Hela).
  assert (∀ rest, parse_line st (p ++ rest) = Ok (record_outcome st p)) as H.
  { intros r. rewrite Hp.
    destruct (strip_app c body d r (mark_not_space c Hc)
                (is_hex_last_not_space body d Hd)) as [r' Hs].
    rewrite <- Hp in *. by apply (parse_line_fields st _ p r'). }
  split; [apply H |]. split.
  { rewrite H. specialize (H []). rewrite app_nil_r in H. by rewrite H. }
  intros Hty byte_count base_addr. unfold record_outcome. rewrite Hty.
  cbn [Z.eqb]. eexists. split; [reflexivity |]. intros a.
  fold byte_count. replace byte_count with (Z.of_nat (Z.to_nat byte_count)) by lia.
  apply stored_lookup.
Qed.

Lemma checksum_ignored_witness :
  parse_line (PState ∅ 0) (lit ":0100200055" ++ lit "zz and more")
  = parse_line (PState ∅ 0) (lit ":0100200055")
  ∧ parse_line (PState ∅ 0) (lit ":0100200055" ++ lit "zz and more")
    = Ok (Continue (PState {[0x20 := 0x55]} 0)).
Proof.
  destruct (checksum_ignored (PState ∅ 0) (lit ":0100200055")
              (lit "zz and more")) as (H1 & H2 & _); [reflexivity |].
  split; [exact H2 |]. rewrite H1. by vm_compute.
Defined.

(** ** Decoding and encoding *)

Lemma ord_mark (c : ascii) : ord c = 58 -> c = ":"%char.
Proof.
  unfold ord. intros H. rewrite <- (ascii_N_embedding c).
  by replace (N_of_ascii c) with 58%N by lia.
Qed.




(** *** Lines with lower-case digits *)



Lemma upper_digit_fixed (c : ascii) :
  is_upper_hex c = true -> upper_digit c = c.
Proof. by destruct c as [[] [] [] [] [] [] [] []]. Qed.





Lemma upper_digits_fixed (s : str) :
  forallb is_upper_hex s = true -> upper_digits s = s.
Proof.
  induction s as [| c s IH]; [done |].
  change (upper_digits (c :: s)) with (upper_digit c :: upper_digits s).
  cbn [forallb]. intros [Hc Hs]%andb_prop.
  by rewrite upper_digit_fixed, IH.
Qed.








(** ** Short records *)

Lemma store_bytes_short (df : str) base_addr idxs d i :
  i ∈ idxs -> 0 <= i -> Z.of_nat (length df) <= i * 2 ->
  store_bytes df base_addr idxs d = Raise invalid_literal.
Proof.
  intros Hin Hi Hl. revert d.
  induction idxs as [|j idxs IH]; intros d; [by apply elem_of_nil in Hin |].
  cbn. destruct (decide (j = i)) as [-> | Hne].
  - by rewrite slice_short by lia.
  - unfold int16_exn at 1. destruct (int16 _); [| done]. cbn.
    apply IH. apply elem_of_cons in Hin as [-> | Hin]; done.
Qed.

(** C7, as stated, fails: a line whose data field is shorter than the byte
    count demands can be accepted. An extended linear address record with
    a byte count of 2 and one pair of digits sets the segment to the value
    of that pair, and a data record with a byte count of 2 and three digits
    stores two bytes. *)
Lemma short_records_accepted :
  parse_lines [text_line ":02000004AB"; text_line ":02000000112"] (PState ∅ 0)
  = Ok (<[0xAB0001 := 0x2]> (<[0xAB0000 := 0x11]> ∅))
  ∧ ¬ short_data_always_raises.
Proof.
  split; [by vm_compute |]. intros H.
  destruct (H (PState ∅ 0) (text_line ":02000004AB") 2 0 4 (lit "AB"))
    as [e He]; [by vm_compute | by vm_compute | by vm_compute |].
  by vm_compute in He.
Qed.

(** C7, amended. A record line, with byte count [bc] and record type [ty]
    read from it, is refused with the error of [int()] when it is a data
    record with [bc >= 1] whose data field lacks at least one whole pair of
    digits, or an extended linear address record with a byte count of 2 and
    an empty data field; an extended linear address record with another
    byte count is refused with the error of the record length. The error
    ends the parsing of the file. *)
Theorem short_record_raises (st : pstate) (raw : str) (bc off ty : Z)
    (data_field : str) (rest : list str) :
  head (strip raw) = Some ":"%char ->
  read_fields (strip raw) = Ok (bc, off, ty, data_field) ->
  (ty = 0x00 -> 1 <= bc -> Z.of_nat (length data_field) <= 2 * (bc - 1) ->
   parse_line st raw = Raise invalid_literal)
  ∧ (ty = 0x04 -> bc ≠ 2 ->
     parse_line st raw
     = Raise (ValueError "Invalid extended linear address record length"))
  ∧ (ty = 0x04 -> bc = 2 -> data_field = [] ->
     parse_line st raw = Raise invalid_literal)
  ∧ (∀ e, parse_line st raw = Raise e ->
          parse_lines (raw :: rest) st = Raise e).
Proof.
  intros Hhead Hf. unfold parse_line.
  destruct (strip raw) as [|c line] eqn:Hs; [done |].
  injection Hhead as ->. cbn [ord N_of_ascii]. rewrite Hf.
  cbn [mbind result_bind].
  split; [| split; [| split]].
  - intros -> Hbc Hl. cbn [Z.eqb]. 
    rewrite (store_bytes_short _ _ _ _ (bc - 1)); [done | | lia | lia].
    apply elem_of_seqZ. lia.
  - intros -> Hbc. cbn [Z.eqb Pos.eqb].
    by destruct (Z.eqb_spec bc 2).
  - intros -> -> ->. reflexivity.
  - intros e He. cbn [parse_lines]. unfold parse_line. rewrite Hs.
    cbn [ord N_of_ascii]. rewrite Hf. cbn [mbind result_bind]. by rewrite He.
Qed.

Lemma short_record_raises_witness :
  parse_line (PState ∅ 0) (text_line ":0200000011") = Raise invalid_literal
  ∧ parse_line (PState ∅ 0) (text_line ":0300000412")
    = Raise (ValueError "Invalid extended linear address record length")
  ∧ parse_line (PState ∅ 0) (text_line ":02000004") = Raise invalid_literal
  ∧ parse_lines [text_line ":02000004"; text_line ":00000001FF"] (PState ∅ 0)
    = Raise invalid_literal.
Proof.
  destruct (short_record_raises (PState ∅ 0) (text_line ":0200000011") 2 0 0
              (lit "11") []) as (H1 & _); [reflexivity | reflexivity |].
  destruct (short_record_raises (PState ∅ 0) (text_line ":0300000412") 3 0 4
              (lit "12") []) as (_ & H2 & _); [reflexivity | reflexivity |].
  destruct (short_record_raises (PState ∅ 0) (text_line ":02000004") 2 0 4
              [] [text_line ":00000001FF"]) as (_ & _ & H3 & H4);
    [reflexivity | reflexivity |].
  split; [apply H1; (done || cbn; lia) |].
  split; [by apply H2 |].
  split; [by apply H3 |].
  apply H4. by apply H3.
Defined.

(** * Further properties *)

(** ** Digits of fixed width *)

Lemma hex_char_facts d :
  0 <= d < 16 ->
  is_upper_hex (hex_char d) = true ∧ hex_value (hex_char d) = Some d.
Proof.
  intros Hd.
  assert (d = 0 ∨ d = 1 ∨ d = 2 ∨ d = 3 ∨ d = 4 ∨ d = 5 ∨ d = 6 ∨ d = 7
          ∨ d = 8 ∨ d = 9 ∨ d = 10 ∨ d = 11 ∨ d = 12 ∨ d = 13 ∨ d = 14
          ∨ d = 15) as H by lia.
  repeat (destruct H as [-> | H]; [by vm_compute |]). subst. by vm_compute.
Qed.

Lemma length_fixed_hex w n : length (fixed_hex w n) = w.
Proof.
  revert n. induction w as [|w IH]; intros n; [done |].
  cbn [fixed_hex]. rewrite length_app, IH. cbn. lia.
Qed.

Lemma fixed_hex_upper w n : forallb is_upper_hex (fixed_hex w n) = true.
Proof.
  revert n. induction w as [|w IH]; intros n; [done |].
  cbn [fixed_hex]. rewrite forallb_app, IH. cbn [forallb andb].
  destruct (hex_char_facts (n mod 16)) as [-> _]; [| done].
  apply Z.mod_pos_bound. lia.
Qed.

(** The value of the [w] digits of [n] is [n]. *)
Lemma hex_number_fixed w n :
  0 <= n < 16 ^ Z.of_nat w -> hex_number (fixed_hex w n) = n.
Proof.
  revert n. induction w as [|w IH]; intros n Hn.
  - cbn in *. lia.
  - cbn [fixed_hex]. rewrite hex_number_snoc.
    destruct (hex_char_facts (n mod 16)) as [_ ->];
      [apply Z.mod_pos_bound; lia |].
    change (default 0 (Some (n mod 16))) with (n mod 16).
    rewrite IH; [pose proof (Z.div_mod n 16); lia |].
    rewrite Nat2Z.inj_succ, Z.pow_succ_r in Hn by lia.
    split; [apply Z.div_pos; lia | apply Z.div_lt_upper_bound; lia].
Qed.

Lemma fixed_hex_2 n :
  fixed_hex 2 n = [hex_char ((n / 16) mod 16); hex_char (n mod 16)].
Proof. reflexivity. Qed.

Lemma fixed_hex_4 n :
  fixed_hex 4 n
  = [hex_char ((n / 16 / 16 / 16) mod 16); hex_char ((n / 16 / 16) mod 16);
     hex_char ((n / 16) mod 16); hex_char (n mod 16)].
Proof. reflexivity. Qed.

Lemma length_concat_fixed (bytes : list Z) :
  length (concat (fixed_hex 2 <$> bytes)) = (2 * length bytes)%nat.
Proof.
  induction bytes as [|b bytes IH]; [done |].
  rewrite fmap_cons, concat_cons, length_app, IH, length_fixed_hex.
  cbn [length]. lia.
Qed.

Lemma concat_fixed_upper (bytes : list Z) :
  forallb is_upper_hex (concat (fixed_hex 2 <$> bytes)) = true.
Proof.
  induction bytes as [|b bytes IH]; [done |].
  rewrite fmap_cons, concat_cons, forallb_app, IH.
  by rewrite fixed_hex_upper.
Qed.

(** The pair number [i] of the text of a list of bytes is the byte number
    [i]. *)
Lemma byte_at_concat (bytes : list Z) (i : nat) b :
  Forall (fun b => 0 <= b < 256) bytes -> bytes !! i = Some b ->
  byte_at (concat (fixed_hex 2 <$> bytes)) (Z.of_nat i) = b.
Proof.
  intros Hall. revert i. induction Hall as [|x bytes Hx _ IH]; intros i Hi.
  { by destruct i. }
  unfold byte_at in *. rewrite fmap_cons, concat_cons.
  destruct i as [|i]; cbn [lookup list_lookup] in Hi.
  - injection Hi as ->.
    replace (slice _ _ _) with (fixed_hex 2 b)
      by (rewrite slice_nonneg by lia; reflexivity).
    apply (hex_number_fixed 2). lia.
  - rewrite fixed_hex_2. cbn [app]. rewrite !slice_cons by lia.
    rewrite <- (IH i Hi). f_equal. f_equal; lia.
Qed.

(** ** The text of a record and its fields *)

Lemma fmtX2_fixed_hex n : 0 <= n < 256 -> fmtX 2 n = fixed_hex 2 n.
Proof. intros. by apply (fmtX_fixed 1). Qed.

Lemma fmtX4_fixed_hex n : 0 <= n < 65536 -> fmtX 4 n = fixed_hex 4 n.
Proof. intros. by apply (fmtX_fixed 3). Qed.

(** The format of a record whose fields fit their widths. *)
Lemma format_record_prefix bc off ty bytes chk :
  0 <= bc < 256 -> 0 <= off < 65536 -> 0 <= ty < 256 ->
  Forall (fun b => 0 <= b < 256) bytes -> 0 <= chk < 256 ->
  format_record bc off ty bytes chk
  = record_prefix bc off ty bytes ++ fixed_hex 2 chk.
Proof.
  intros Hbc Hoff Hty Hb Hchk. unfold format_record, record_prefix.
  rewrite !fmtX2_fixed_hex, fmtX4_fixed_hex by done.
  replace (fmtX 2 <$> bytes) with (fixed_hex 2 <$> bytes).
  { by rewrite <- !app_assoc. }
  apply Forall_fmap_ext. eapply Forall_impl; [exact Hb |].
  intros b ?. symmetry. by apply fmtX2_fixed_hex.
Qed.

Lemma record_prefix_fields bc off ty bytes :
  let p := record_prefix bc off ty bytes in
  slice p 1 3 = fixed_hex 2 bc
  ∧ slice p 3 7 = fixed_hex 4 off
  ∧ slice p 7 9 = fixed_hex 2 ty
  ∧ slice p 9 (9 + Z.of_nat (length bytes) * 2) = concat (fixed_hex 2 <$> bytes)
  ∧ Z.of_nat (length p) = 9 + 2 * Z.of_nat (length bytes).
Proof.
  intros p. subst p. unfold record_prefix.
  rewrite (fixed_hex_2 bc), (fixed_hex_2 ty), (fixed_hex_4 off).
  cbn [lit list_ascii_of_string app].
  repeat split; try (rewrite slice_nonneg by lia; reflexivity).
  - rewrite slice_nonneg by lia.
    replace (Z.to_nat (9 + Z.of_nat (length bytes) * 2) - Z.to_nat 9)%nat
      with (2 * length bytes)%nat by lia.
    change (Z.to_nat 9) with 9%nat. cbn [drop].
    rewrite drop_0, take_ge; [done |]. by rewrite length_concat_fixed.
  - cbn [length]. rewrite length_concat_fixed. lia.
Qed.

Lemma valid_fields_prefix bc off ty bytes :
  0 <= bc < 256 -> bc = Z.of_nat (length bytes) ->
  0 <= ty < 256 -> (ty = 0x04 -> bc = 2) ->
  valid_fields (record_prefix bc off ty bytes) = true.
Proof.
  intros Hbc Hl Hty Hela.
  destruct (record_prefix_fields bc off ty bytes) as (H1 & _ & H3 & _ & H5).
  unfold valid_fields. rewrite H1, H3, H5.
  rewrite !(hex_number_fixed 2) by lia.
  unfold record_prefix at 1. cbn [lit list_ascii_of_string app].
  rewrite !forallb_app.
  rewrite !(forallb_upper_hex _ (fixed_hex_upper _ _)).
  rewrite (forallb_upper_hex _ (concat_fixed_upper _)).
  cbn [ord N_of_ascii Z.of_N Z.eqb Pos.eqb andb].
  destruct (Z.leb_spec 9 (9 + 2 * Z.of_nat (length bytes))); [| lia].
  destruct (Z.eqb_spec (9 + 2 * Z.of_nat (length bytes)) (9 + 2 * bc)); [| lia].
  cbn [andb]. destruct (Z.eqb_spec ty 4) as [E | E]; [| done].
  cbn. apply Z.eqb_eq. auto.
Qed.

(** Once it is stripped, the line of a record is the record. *)
Lemma parse_line_valid_prefix (st : pstate) (p rest : str) :
  valid_fields p = true ->
  parse_line st (p ++ rest) = Ok (record_outcome st p).
Proof.
  intros Hv. destruct (valid_fields_inv p Hv)
    as (c & body & d & Hp & Hc & Hd & _).
  destruct (strip_app c body d rest (mark_not_space c Hc)
              (is_hex_last_not_space body d Hd)) as [r' Hs].
  rewrite <- Hp in Hs. by apply (parse_line_fields st _ p r').
Qed.

Lemma hex_number_app (a b : str) :
  hex_number (a ++ b) = hex_number a * 16 ^ Z.of_nat (length b) + hex_number b.
Proof.
  induction b as [|c b IH] using rev_ind.
  - rewrite app_nil_r. cbn. lia.
  - rewrite app_assoc, !hex_number_snoc, IH, length_app. cbn [length].
    replace (Z.of_nat (length b + 1)) with (Z.succ (Z.of_nat (length b))) by lia.
    rewrite Z.pow_succ_r by lia. lia.
Qed.

Lemma fill_range_lookup merged cur (n : nat) d a :
  fill_range merged cur (Z.of_nat n) d !! a
  = if decide (cur <= a < cur + Z.of_nat n)
    then Some (dict_get merged a 0) else d !! a.
Proof.
  induction n as [|n IH].
  - cbn. destruct (decide _); [lia | done].
  - unfold fill_range in *. rewrite seqZ_S, foldl_app. cbn [foldl].
    destruct (decide (a = cur + Z.of_nat n)) as [-> | Hne].
    + clear IH. rewrite lookup_insert_eq. destruct (decide _); [done | lia].
    + rewrite lookup_insert_ne by lia. rewrite IH.
      repeat destruct (decide _); (done || lia).
Qed.

Lemma fill_range_app merged cur n1 n2 d :
  0 <= n1 -> 0 <= n2 ->
  fill_range merged cur (n1 + n2) d
  = fill_range merged (cur + n1) n2 (fill_range merged cur n1 d).
Proof.
  intros H1 H2. unfold fill_range. by rewrite seqZ_app, foldl_app by done.
Qed.

(** What a data record of the output stores, read back. *)
Lemma stored_fill_range merged cur (n : nat) d :
  (∀ a, 0 <= dict_get merged a 0 < 256) ->
  stored
    (concat (fixed_hex 2
             <$> ((fun i => dict_get merged (cur + i) 0)
                  <$> seqZ 0 (Z.of_nat n))))
    cur (seqZ 0 (Z.of_nat n)) d
  = fill_range merged cur (Z.of_nat n) d.
Proof.
  intros Hb. apply map_eq. intros a.
  rewrite stored_lookup, fill_range_lookup.
  destruct (decide _) as [Ha |]; [| done]. f_equal.
  replace (a - cur) with (Z.of_nat (Z.to_nat (a - cur))) by lia.
  apply byte_at_concat.
  - apply Forall_fmap, Forall_forall. intros i _. apply Hb.
  - rewrite list_lookup_fmap, lookup_seqZ_lt by lia. cbn.
    do 2 f_equal. lia.
Qed.

(** ** Reading the output back *)

Lemma compute_checksum_range bc off ty bytes :
  0 <= compute_checksum bc off ty bytes < 256.
Proof.
  rewrite compute_checksum_field_sum. apply Z.mod_pos_bound. lia.
Qed.

Lemma shiftl_word (x : Z) : Z.shiftl x 16 = x * 65536.
Proof. by rewrite Z.shiftl_mul_pow2. Qed.

Lemma segment_and_offset cur :
  Z.shiftl (Z.shiftr cur 16) 16 + Z.land cur 0xFFFF = cur.
Proof.
  rewrite shiftl_word, shiftr_word, land_word.
  pose proof (Z.div_mod cur 65536). lia.
Qed.

(** The line of an extended linear address record sets the segment. *)
Lemma parse_ext_line (st : pstate) x :
  0 <= x < 65536 ->
  parse_line st (gen_ext_record x ++ [newline])
  = Ok (Continue (PState (data st) x)).
Proof.
  intros Hx. unfold gen_ext_record.
  assert (0 <= Z.land (Z.shiftr x 8) 0xFF < 256
          ∧ 0 <= Z.land x 0xFF < 256) as [Hh Hl].
  { rewrite !land_byte. split; apply Z.mod_pos_bound; lia. }
  rewrite format_record_prefix;
    [| lia | lia | lia | | apply compute_checksum_range].
  2:{ repeat (constructor; [assumption |]). constructor. }
  rewrite <- app_assoc.
  rewrite parse_line_valid_prefix by (by apply valid_fields_prefix).
  unfold record_outcome.
  set (bytes := [Z.land (Z.shiftr x 8) 0xFF; Z.land x 0xFF]).
  destruct (record_prefix_fields 2 0 4 bytes) as (H1 & _ & H3 & H4 & _).
  rewrite H1, H3, !(hex_number_fixed 2) by lia.
  change (9 + 2 * 2) with (9 + Z.of_nat (length bytes) * 2). rewrite H4.
  cbn [Z.eqb Pos.eqb]. do 3 f_equal. subst bytes. cbn [fmap list_fmap concat].
  rewrite app_nil_r, hex_number_app, length_fixed_hex.
  rewrite !(hex_number_fixed 2) by lia.
  rewrite !land_byte, shiftr_byte.
  rewrite (Z.mod_small (x / 256)).
  - pose proof (Z.div_mod x 256). change (16 ^ Z.of_nat 2) with 256. lia.
  - split; [apply Z.div_pos; lia | apply Z.div_lt_upper_bound; lia].
Qed.

(** The line of a data record stores its bytes from the address that the
    segment and the offset make. *)
Lemma parse_data_line (st : pstate) off bytes chk :
  0 <= off < 65536 -> (length bytes < 256)%nat ->
  Forall (fun b => 0 <= b < 256) bytes -> 0 <= chk < 256 ->
  parse_line st
    (format_record (Z.of_nat (length bytes)) off 0x00 bytes chk ++ [newline])
  = Ok (Continue
          (PState (stored (concat (fixed_hex 2 <$> bytes))
                     (Z.shiftl (extended_addr st) 16 + off)
                     (seqZ 0 (Z.of_nat (length bytes))) (data st))
                  (extended_addr st))).
Proof.
  intros Hoff Hlen Hb Hchk.
  rewrite format_record_prefix by (done || lia). rewrite <- app_assoc.
  rewrite parse_line_valid_prefix by (apply valid_fields_prefix; (done || lia)).
  unfold record_outcome.
  destruct (record_prefix_fields (Z.of_nat (length bytes)) off 0 bytes)
    as (H1 & H2 & H3 & H4 & _).
  rewrite H1, H2, H3, !(hex_number_fixed 2), (hex_number_fixed 4) by lia.
  by rewrite H4.
Qed.

Lemma parse_eof_line (st : pstate) :
  parse_line st (lit ":00000001FF" ++ [newline]) = Ok (Break st).
Proof. reflexivity. Qed.

Section read_back.
Context (merged : gmap Z Z) (hi : Z).
Hypothesis values_are_bytes : ∀ a, 0 <= dict_get merged a 0 < 256.
Hypothesis hi_fits : hi < 2 ^ 32.

(** The lines of the loop, read from the address [cur] on, fill the
    dictionary of the parser from [cur] to [hi]. *)
Lemma parse_walk fuel cur last d ext rest :
  0 <= cur -> hi - cur + 1 <= Z.of_nat fuel ->
  (∀ l, last = Some l -> ext = l) ->
  ∃ ext',
    parse_lines (lines_of (render <$> walk fuel merged hi cur last) ++ rest)
      (PState d ext)
    = parse_lines rest (PState (fill_range merged cur (hi - cur + 1) d) ext').
Proof.
  revert cur last d ext.
  induction fuel as [|f IH]; intros cur last d ext Hcur Hf Hlast.
  { exists ext. cbn. unfold fill_range. rewrite seqZ_nil; [done | lia]. }
  cbn [walk]. destruct (Z.leb_spec cur hi) as [Hle | Hgt].
  2:{ exists ext. cbn. unfold fill_range. rewrite seqZ_nil; [done | lia]. }
  assert (0 <= Z.shiftr cur 16 < 65536) as Hseg.
  { rewrite shiftr_word. split; [apply Z.div_pos; lia |].
    apply Z.div_lt_upper_bound; lia. }
  assert (0 <= Z.land cur 0xFFFF < 65536) as Hoff.
  { rewrite land_word. apply Z.mod_pos_bound. lia. }
  chunk_facts hi cur Hle len.
  set (bytes := (fun i => dict_get merged (cur + i) 0) <$> seqZ 0 len).
  assert (Z.of_nat (length bytes) = len) as Hlb.
  { subst bytes. rewrite length_fmap, length_seqZ. lia. }
  assert (parse_lines
            (lines_of (render <$>
               DataRec cur len (Z.land cur 0xFFFF) bytes
                 (compute_checksum len (Z.land cur 0xFFFF) 0 bytes)
               :: walk f merged hi (cur + len) (Some (Z.shiftr cur 16)))
             ++ rest)
            (PState d (Z.shiftr cur 16))
          = parse_lines
              (lines_of (render <$>
                 walk f merged hi (cur + len) (Some (Z.shiftr cur 16)))
               ++ rest)
              (PState (fill_range merged cur len d) (Z.shiftr cur 16))) as Hdata.
  { cbn [fmap list_fmap lines_of render app parse_lines].
    rewrite <- Hlb at 1. rewrite parse_data_line.
    - cbn [data extended_addr]. rewrite segment_and_offset, Hlb.
      subst bytes. replace len with (Z.of_nat (Z.to_nat len)) by lia.
      by rewrite stored_fill_range.
    - done.
    - lia.
    - subst bytes. apply Forall_fmap, Forall_forall. intros i _.
      apply values_are_bytes.
    - apply compute_checksum_range. }
  destruct (IH (cur + len) (Some (Z.shiftr cur 16))
              (fill_range merged cur len d) (Z.shiftr cur 16))
    as [ext' Hrest]; [lia | lia | by intros l [= <-] |].
  exists ext'.
  replace (hi - cur + 1) with (len + (hi - (cur + len) + 1)) by lia.
  rewrite fill_range_app by lia. rewrite <- Hrest, <- Hdata.
  destruct (decide (Some (Z.shiftr cur 16) = last)) as [E | E].
  - symmetry in E. by rewrite (Hlast _ E).
  - cbn [app fmap list_fmap lines_of render parse_lines].
    by rewrite parse_ext_line.
Qed.

End read_back.

Lemma file_of_trace_lines t :
  file_of_trace t = lines_of (render <$> t) ++ [lit ":00000001FF" ++ [newline]].
Proof. unfold file_of_trace, lines_of. by rewrite fmap_app. Qed.

Lemma dict_get_byte (d : gmap Z Z) a :
  image_in_range d -> 0 <= dict_get d a 0 < 256.
Proof.
  intros Hr. unfold dict_get. destruct (d !! a) as [v |] eqn:E; cbn; [| lia].
  by destruct (Hr a v E).
Qed.

Lemma min_key_unique (d : gmap Z Z) lo :
  is_Some (d !! lo) -> (∀ k, is_Some (d !! k) -> lo <= k) ->
  min_key d = Some lo.
Proof.
  intros Hin Hmin. destruct (keys_nonempty d) as (lo' & hi' & Hlo' & _).
  { intros ->. rewrite lookup_empty in Hin. by destruct Hin. }
  destruct (min_key_spec d lo' Hlo') as [Hin' Hmin'].
  rewrite Hlo'. f_equal. pose proof (Hmin _ Hin'). pose proof (Hmin' _ Hin). lia.
Qed.

Lemma max_key_unique (d : gmap Z Z) hi :
  is_Some (d !! hi) -> (∀ k, is_Some (d !! k) -> k <= hi) ->
  max_key d = Some hi.
Proof.
  intros Hin Hmax. destruct (keys_nonempty d) as (lo' & hi' & _ & Hhi').
  { intros ->. rewrite lookup_empty in Hin. by destruct Hin. }
  destruct (max_key_spec d hi' Hhi') as [Hin' Hmax'].
  rewrite Hhi'. f_equal. pose proof (Hmax _ Hin'). pose proof (Hmax' _ Hin). lia.
Qed.

Lemma zero_filled_lookup merged lo hi a :
  min_key merged = Some lo -> max_key merged = Some hi ->
  zero_filled merged !! a
  = if decide (lo <= a <= hi) then Some (dict_get merged a 0) else None.
Proof.
  intros Hlo Hhi. unfold zero_filled. rewrite Hlo, Hhi.
  pose proof (min_key_le_max_key _ _ _ Hlo Hhi).
  replace (hi - lo + 1) with (Z.of_nat (Z.to_nat (hi - lo + 1))) by lia.
  rewrite fill_range_lookup, lookup_empty.
  repeat destruct (decide _); (done || lia).
Qed.

Lemma zero_filled_dict_get merged a :
  dict_get (zero_filled merged) a 0 = dict_get merged a 0.
Proof.
  destruct (decide (merged = ∅)) as [-> | Hne].
  { unfold zero_filled. by destruct keys_empty as [-> _]. }
  destruct (keys_nonempty merged Hne) as (lo & hi & Hlo & Hhi).
  unfold dict_get at 1. rewrite (zero_filled_lookup merged lo hi a Hlo Hhi).
  destruct (decide _) as [Ha | Ha]; [done |]. cbn.
  unfold dict_get. destruct (merged !! a) as [v |] eqn:E; [| done].
  destruct (min_key_spec _ _ Hlo) as [_ H1].
  destruct (max_key_spec _ _ Hhi) as [_ H2].
  pose proof (H1 a ltac:(eauto)). pose proof (H2 a ltac:(eauto)). lia.
Qed.

Lemma zero_filled_keys merged lo hi :
  min_key merged = Some lo -> max_key merged = Some hi ->
  min_key (zero_filled merged) = Some lo
  ∧ max_key (zero_filled merged) = Some hi.
Proof.
  intros Hlo Hhi. pose proof (min_key_le_max_key _ _ _ Hlo Hhi).
  split; [apply min_key_unique | apply max_key_unique].
  all: try (rewrite (zero_filled_lookup merged lo hi) by done;
            destruct (decide _); [eauto | lia]).
  all: intros k [v Hk]; rewrite (zero_filled_lookup merged lo hi) in Hk by done;
       destruct (decide _); [lia | done].
Qed.

(** The trace reads the image through [get] with the default 0 only. *)
Lemma walk_dict_get_ext (m m' : gmap Z Z) fuel hi cur last :
  (∀ a, dict_get m a 0 = dict_get m' a 0) ->
  walk fuel m hi cur last = walk fuel m' hi cur last.
Proof.
  intros Hget. revert cur last.
  induction fuel as [|f IH]; intros cur last; cbn [walk]; [done |].
  destruct (Z.leb_spec cur hi); [| done]. rewrite IH.
  replace ((fun i => dict_get m (cur + i) 0) <$> seqZ 0 _)
    with ((fun i => dict_get m' (cur + i) 0) <$> seqZ 0
            (Z.min (16 - Z.land cur 0xFFFF mod 16) (hi - cur + 1))); [done |].
  apply list_fmap_ext. intros i x _. by rewrite Hget.
Qed.

Lemma trace_zero_filled merged : trace (zero_filled merged) = trace merged.
Proof.
  destruct (decide (merged = ∅)) as [-> | Hne].
  { unfold zero_filled. by destruct keys_empty as [-> _]. }
  destruct (keys_nonempty merged Hne) as (lo & hi & Hlo & Hhi).
  destruct (zero_filled_keys merged lo hi Hlo Hhi) as [Hlo' Hhi'].
  unfold trace. rewrite Hlo, Hhi, Hlo', Hhi'.
  apply walk_dict_get_ext, zero_filled_dict_get.
Qed.

(** The file that [write_data_as_hex] writes for an image whose addresses
    fit 32 bits and whose values are bytes is read back as the image with
    its gaps filled. *)
Lemma parse_file_of_trace merged lo hi :
  min_key merged = Some lo -> max_key merged = Some hi ->
  image_in_range merged ->
  parse_lines (file_of_trace (trace merged)) (PState ∅ 0)
  = Ok (zero_filled merged).
Proof.
  intros Hlo Hhi Hr. pose proof (min_key_le_max_key _ _ _ Hlo Hhi) as Hle.
  destruct (min_key_spec _ _ Hlo) as [[vlo Hvlo] _].
  destruct (max_key_spec _ _ Hhi) as [[vhi Hvhi] _].
  destruct (Hr _ _ Hvlo) as [Hlo0 _]. destruct (Hr _ _ Hvhi) as [Hhi0 _].
  rewrite file_of_trace_lines. unfold trace, zero_filled. rewrite Hlo, Hhi.
  destruct (parse_walk merged hi (fun a => dict_get_byte merged a Hr)
              ltac:(lia) (Z.to_nat (hi - lo + 1)) lo None ∅ 0
              [lit ":00000001FF" ++ [newline]]) as [ext' ->];
    [lia | lia | done |].
  reflexivity.
Qed.

Lemma zero_filled_nonempty merged : merged ≠ ∅ -> zero_filled merged ≠ ∅.
Proof.
  intros Hne. destruct (keys_nonempty merged Hne) as (lo & hi & Hlo & Hhi).
  destruct (zero_filled_keys merged lo hi Hlo Hhi) as [Hlo' _].
  by eapply nonempty_of_min_key.
Qed.

(** X1. Written and read back, an image whose addresses fit 32 bits and
    whose values are bytes is the image with the gaps between its smallest
    and greatest address filled with 0: every value of the image is kept,
    every other address of the range reads 0, and no address outside the
    range appears. *)
Theorem write_then_parse (merged : gmap Z Z) (lo hi : Z)
    (output_file : string) (fs : filesystem) :
  min_key merged = Some lo -> max_key merged = Some hi ->
  image_in_range merged ->
  ∃ fs',
    write_data_as_hex merged output_file fs = Some (Ok tt, fs')
    ∧ parse_intel_hex fs' output_file = Ok (zero_filled merged)
    ∧ (∀ a, zero_filled merged !! a
            = if decide (lo <= a <= hi)
              then Some (match merged !! a with Some v => v | None => 0 end)
              else None)
    ∧ (∀ a v, merged !! a = Some v -> zero_filled merged !! a = Some v).
Proof.
  intros Hlo Hhi Hr. eexists. split.
  { apply write_data_as_hex_trace. by eapply nonempty_of_min_key. }
  split.
  { unfold parse_intel_hex. rewrite lookup_insert_eq.
    by apply (parse_file_of_trace merged lo hi). }
  assert (∀ a, zero_filled merged !! a
               = if decide (lo <= a <= hi)
                 then Some (match merged !! a with Some v => v | None => 0 end)
                 else None) as Hz.
  { intros a. rewrite (zero_filled_lookup merged lo hi a Hlo Hhi).
    unfold dict_get. by destruct (merged !! a). }
  split; [exact Hz |]. intros a v Ha. rewrite Hz, Ha.
  destruct (min_key_spec _ _ Hlo) as [_ H1].
  destruct (max_key_spec _ _ Hhi) as [_ H2].
  pose proof (H1 a ltac:(eauto)). pose proof (H2 a ltac:(eauto)).
  destruct (decide _); [done | lia].
Qed.

Lemma imageA_in_range : image_in_range imageA.
Proof.
  intros k v H. apply elem_of_map_to_list in H.
  replace (map_to_list imageA) with [(5, 32); (0, 16)] in H by (by vm_compute).
  apply elem_of_cons in H as [[= -> ->] | H]; [lia |].
  apply elem_of_cons in H as [[= -> ->] | H]; [lia |].
  by apply elem_of_nil in H.
Defined.

Lemma write_then_parse_witness :
  ∃ fs',
    write_data_as_hex imageA "out.hex" ∅ = Some (Ok tt, fs')
    ∧ parse_intel_hex fs' "out.hex" = Ok (zero_filled imageA)
    ∧ zero_filled imageA !! 3 = Some 0
    ∧ zero_filled imageA !! 5 = Some 0x20.
Proof.
  destruct (write_then_parse imageA 0 5 "out.hex" ∅)
    as (fs' & H1 & H2 & H3 & H4);
    [reflexivity | reflexivity | exact imageA_in_range |].
  exists fs'. split; [exact H1 |]. split; [exact H2 |].
  split; [by rewrite H3 | by apply H4].
Defined.

(** X2. The tool run on its own output reproduces it: when the merged
    image of a run fits 32-bit addresses and bytes, a second run with the
    output file as the only input writes the same lines. *)
Theorem rerun_reproduces_output (files : list string) (out out2 : string)
    (fs : filesystem) (merged : gmap Z Z) :
  merge_files fs files ∅ = Ok merged -> merged ≠ ∅ ->
  image_in_range merged ->
  ∃ fs1 lines,
    main files out fs = Some (Ok tt, fs1)
    ∧ fs1 !! out = Some lines
    ∧ main [out] out2 fs1 = Some (Ok tt, <[out2 := lines]> fs1).
Proof.
  intros Hm Hne Hr.
  destruct (keys_nonempty merged Hne) as (lo & hi & Hlo & Hhi).
  exists (<[out := file_of_trace (trace merged)]> fs), (file_of_trace (trace merged)).
  split.
  { unfold main. rewrite Hm. destruct (decide (merged = ∅)); [done |].
    by apply write_data_as_hex_trace. }
  split; [apply lookup_insert_eq |].
  unfold main. cbn [merge_files]. unfold parse_intel_hex.
  rewrite lookup_insert_eq, (parse_file_of_trace merged lo hi) by done.
  cbn [mbind result_bind]. unfold dict_update. rewrite (right_id_L ∅ (∪)).
  destruct (decide (zero_filled merged = ∅)) as [E | _].
  { by apply zero_filled_nonempty in E. }
  rewrite write_data_as_hex_trace by (by apply zero_filled_nonempty).
  by rewrite trace_zero_filled.
Qed.

Lemma rerun_reproduces_output_witness :
  ∃ fs1 lines,
    main ["a.hex"; "b.hex"]%string "out.hex" fs_AB = Some (Ok tt, fs1)
    ∧ fs1 !! "out.hex"%string = Some lines
    ∧ main ["out.hex"]%string "again.hex" fs1
      = Some (Ok tt, <["again.hex"%string := lines]> fs1).
Proof.
  apply (rerun_reproduces_output ["a.hex"; "b.hex"]%string "out.hex"
           "again.hex" fs_AB (<[0x0005 := 0xFF]> (<[0x0000 := 0x10]> ∅))).
  - by vm_compute.
  - intros H. apply (f_equal (fun d : gmap Z Z => d !! 0)) in H.
    by vm_compute in H.
  - intros k v H. apply elem_of_map_to_list in H.
    replace (map_to_list (<[0x0005 := 0xFF]> (<[0x0000 := 0x10]> (∅ : gmap Z Z))))
      with [(5, 255); (0, 16)] in H by (by vm_compute).
    apply elem_of_cons in H as [[= -> ->] | H]; [lia |].
    apply elem_of_cons in H as [[= -> ->] | H]; [lia |].
    by apply elem_of_nil in H.
Defined.

(** ** Lines without effect, and the end of the file *)

Lemma parse_line_skipped (st : pstate) (raw : str) :
  is_skipped raw = true -> parse_line st raw = Ok (Continue st).
Proof.
  unfold is_skipped, parse_line. destruct (strip raw) as [|c line]; [done |].
  destruct (negb (ord c =? 58)); [done |].
  destruct (read_fields (c :: line)) as [[[[bc off] ty] df] | e]; [| done].
  cbn [mbind result_bind].
  intros [[H4 H0]%andb_prop H1]%andb_prop.
  apply negb_true_iff in H4, H0, H1. by rewrite H4, H0, H1.
Qed.

(** A line that starts with a header, once stripped. *)
Lemma strip_header (p rest : str) :
  is_header p = true ->
  ∃ c digits rest',
    p = c :: digits ∧ ord c = 58 ∧ forallb is_hex digits = true
    ∧ Z.of_nat (length p) = 9 ∧ strip (p ++ rest) = p ++ rest'.
Proof.
  destruct p as [| c digits]; [done |]. unfold is_header.
  intros [[Hc Hd]%andb_prop Hl]%andb_prop.
  apply Z.eqb_eq in Hc. apply Z.eqb_eq in Hl.
  destruct digits as [| x body] using rev_ind; [cbn in Hl; lia |].
  destruct (strip_app c body x rest (mark_not_space c Hc)
              (is_hex_last_not_space body x Hd)) as [rest' Hs].
  by exists c, (body ++ [x]), rest'.
Qed.

Lemma read_fields_header (p rest : str) :
  is_header p = true ->
  ∃ c line data_field,
    strip (p ++ rest) = c :: line ∧ ord c = 58
    ∧ read_fields (c :: line)
      = Ok (hex_number (slice p 1 3), hex_number (slice p 3 7),
            hex_number (slice p 7 9), data_field).
Proof.
  intros Hp.
  destruct (strip_header p rest Hp) as (c & digits & rest' & -> & Hc & Hd & Hl & Hs).
  exists c, (digits ++ rest'). eexists. split; [exact Hs |]. split; [done |].
  change (c :: digits ++ rest') with ((c :: digits) ++ rest').
  by rewrite (read_fields_hex c digits rest' Hd) by lia.
Qed.

Lemma read_fields_bad (line : str) :
  bad_field line = true -> read_fields line = Raise invalid_literal.
Proof.
  unfold bad_field, read_fields, int16_exn.
  destruct (int16 (slice line 1 3)); [| done].
  destruct (int16 (slice line 3 7)); [| done].
  by destruct (int16 (slice line 7 9)).
Qed.

(** X3. Blank lines, lines that do not start with the mark, and records
    of a type other than 0, 1 and 4 whose byte count, offset and type are
    read without error have no effect, wherever they stand in the file:
    the file without them is parsed to the same result. Of such a record
    nothing after the type field is looked at: a header of another type
    is passed over whatever follows it. The three fields are read before
    the type is tested: a line with the mark one of whose three fields
    cannot be read is not passed over but raises, whatever its type
    field holds. *)
Theorem skipped_lines_have_no_effect (lines : list str) (st : pstate) :
  parse_lines lines st
  = parse_lines (filter (fun raw => is_skipped raw = false) lines) st
  ∧ (∀ p rest,
       is_header p = true ->
       hex_number (slice p 7 9) ≠ 0x04 -> hex_number (slice p 7 9) ≠ 0x00 ->
       hex_number (slice p 7 9) ≠ 0x01 ->
       is_skipped (p ++ rest) = true)
  ∧ (∀ raw,
       head (strip raw) = Some ":"%char -> bad_field (strip raw) = true ->
       is_skipped raw = false ∧ parse_line st raw = Raise invalid_literal).
Proof.
  split; [| split].
  - revert st. induction lines as [|raw lines IH]; intros st; [done |].
    destruct (is_skipped raw) eqn:E.
    + rewrite filter_cons_False by (by rewrite E).
      cbn [parse_lines]. rewrite (parse_line_skipped st raw E). apply IH.
    + rewrite filter_cons_True by done. cbn [parse_lines].
      destruct (parse_line st raw) as [[st' | st'] | e];
        [apply IH | done | done].
  - intros p rest Hp H4 H0 H1.
    destruct (read_fields_header p rest Hp) as (c & line & df & Hs & Hc & Hr).
    unfold is_skipped. rewrite Hs, Hr, Hc. cbn [Z.eqb Pos.eqb negb].
    apply Z.eqb_neq in H4, H0, H1. by rewrite H4, H0, H1.
  - intros raw Hh Hb. apply read_fields_bad in Hb.
    unfold is_skipped, parse_line.
    destruct (strip raw) as [| c line]; [done |].
    injection Hh as ->. by rewrite Hb.
Qed.

Lemma skipped_lines_have_no_effect_witness :
  is_skipped (lit ":FF000005" ++ lit "no data") = true
  ∧ bad_field (strip (lit ":ZZ000005")) = true
  ∧ parse_line (PState ∅ 0) (lit ":ZZ000005") = Raise invalid_literal.
Proof.
  destruct (skipped_lines_have_no_effect [] (PState ∅ 0)) as (_ & H2 & H3).
  split; [by apply H2 |]. split; [reflexivity |].
  by apply (H3 (lit ":ZZ000005")).
Defined.

(** X4. The parsing of a file ends at its first record of type 1 whose
    byte count, offset and type are read without error, whatever the
    byte count and the offset are: the record and all that follows it,
    valid or not, can be cut off without a change of the result. Nothing
    after the type field of the record is looked at: a header of type 1
    ends the file whatever follows it on the line. A line with the mark
    one of whose three fields cannot be read does not end the file,
    whatever its type field holds: the loop body raises on it. *)
Theorem eof_record_ends_the_file (pre post : list str) (st : pstate) :
  (∀ eof byte_count offset data_field,
     head (strip eof) = Some ":"%char ->
     read_fields (strip eof) = Ok (byte_count, offset, 0x01, data_field) ->
     parse_lines (pre ++ eof :: post) st = parse_lines pre st)
  ∧ (∀ p rest,
       is_header p = true -> hex_number (slice p 7 9) = 0x01 ->
       parse_lines (pre ++ (p ++ rest) :: post) st = parse_lines pre st)
  ∧ (∀ raw,
       head (strip raw) = Some ":"%char -> bad_field (strip raw) = true ->
       parse_line st raw = Raise invalid_literal
       ∧ parse_lines (raw :: post) st = Raise invalid_literal).
Proof.
  assert (∀ eof byte_count offset data_field,
            head (strip eof) = Some ":"%char ->
            read_fields (strip eof) = Ok (byte_count, offset, 0x01, data_field) ->
            parse_lines (pre ++ eof :: post) st = parse_lines pre st) as H.
  { intros eof bc off df Hh Hr.
    assert (∀ st, parse_line st eof = Ok (Break st)) as He.
    { intros st'. unfold parse_line.
      destruct (strip eof) as [| c line]; [done |].
      injection Hh as ->. by rewrite Hr. }
    revert st. induction pre as [|raw pre IH]; intros st.
    - cbn [app parse_lines]. by rewrite He.
    - cbn [app parse_lines].
      destruct (parse_line st raw) as [[st' | st'] | e];
        [apply IH | done | done]. }
  split; [exact H |]. split.
  - intros p rest Hp Hty.
    destruct (read_fields_header p rest Hp) as (c & line & df & Hs & Hc & Hr).
    rewrite Hty in Hr. apply ord_mark in Hc as ->.
    eapply (H (p ++ rest)); rewrite Hs; [done | exact Hr].
  - intros raw Hh Hb. apply read_fields_bad in Hb.
    assert (parse_line st raw = Raise invalid_literal) as He.
    { unfold parse_line. destruct (strip raw) as [| c line]; [done |].
      injection Hh as ->. by rewrite Hb. }
    split; [exact He |]. cbn [parse_lines]. by rewrite He.
Qed.

Lemma eof_record_ends_the_file_witness :
  is_header (lit ":05123401") = true
  ∧ parse_lines
      ([text_line ":0100000010EF"]
       ++ (lit ":05123401" ++ text_line " no data, no checksum")
          :: [text_line ":02000004"; text_line "junk"])
      (PState ∅ 0)
    = parse_lines [text_line ":0100000010EF"] (PState ∅ 0)
  ∧ bad_field (strip (text_line ":ZZ000001")) = true
  ∧ parse_lines [text_line ":ZZ000001"; text_line "junk"] (PState ∅ 0)
    = Raise invalid_literal.
Proof.
  destruct (eof_record_ends_the_file [text_line ":0100000010EF"]
              [text_line ":02000004"; text_line "junk"] (PState ∅ 0))
    as (_ & H2 & _).
  destruct (eof_record_ends_the_file [] [text_line "junk"] (PState ∅ 0))
    as (_ & _ & H3).
  split; [reflexivity |]. split; [by apply H2 |]. split; [reflexivity |].
  by apply (H3 (text_line ":ZZ000001")).
Defined.

(** ** White space around a line *)

Lemma lstrip_spaces sp (ws s : str) :
  forallb sp ws = true -> lstrip sp (ws ++ s) = lstrip sp s.
Proof.
  induction ws as [|c ws IH]; [done |]. cbn.
  intros [-> Hws]%andb_prop. by apply IH.
Qed.

Lemma lstrip_app_spaces sp (s ws : str) :
  forallb sp ws = true ->
  lstrip sp (s ++ ws) = match lstrip sp s with [] => [] | t => t ++ ws end.
Proof.
  intros Hws. induction s as [|c s IH]; cbn.
  - rewrite <- (app_nil_r ws) at 1. by rewrite lstrip_spaces.
  - destruct (sp c); [exact IH | done].
Qed.

Lemma strip_spaces (ws1 s ws2 : str) :
  forallb isspace ws1 = true -> forallb isspace ws2 = true ->
  strip (ws1 ++ s ++ ws2) = strip s.
Proof.
  intros H1 H2. unfold strip. rewrite lstrip_spaces by done.
  rewrite lstrip_app_spaces by done.
  destruct (lstrip isspace s) as [|c t]; [done |].
  rewrite rev_app_distr, lstrip_spaces; [done |].
  rewrite forallb_forall in *. intros x Hx. apply H2. by apply in_rev.
Qed.

(** X5. White space around a line is ignored: blanks and tabs before the
    mark and the line end, also a carriage return before it, leave the
    result of the line as it is. *)
Theorem surrounding_space_ignored (st : pstate) (ws1 raw ws2 : str) :
  forallb isspace ws1 = true -> forallb isspace ws2 = true ->
  parse_line st (ws1 ++ raw ++ ws2) = parse_line st raw.
Proof. intros H1 H2. unfold parse_line. by rewrite strip_spaces. Qed.

Lemma surrounding_space_ignored_witness :
  parse_line (PState ∅ 0)
    (lit "  " ++ lit ":0100000010EF" ++ ["013"%char; "010"%char])
  = parse_line (PState ∅ 0) (lit ":0100000010EF").
Proof.
  apply (surrounding_space_ignored (PState ∅ 0) (lit "  ")
           (lit ":0100000010EF") ["013"%char; "010"%char]); reflexivity.
Defined.

(** ** Errors and empty inputs in [main] *)

Lemma merge_files_app (fs : filesystem) files1 files2 acc :
  merge_files fs (files1 ++ files2) acc
  = acc' ← merge_files fs files1 acc; merge_files fs files2 acc'.
Proof.
  revert acc. induction files1 as [|f files1 IH]; intros acc; [done |].
  cbn [app merge_files]. destruct (parse_intel_hex fs f); [apply IH | done].
Qed.

(** X6. [main] stops at the first input that cannot be read or parsed:
    it raises the error of that input, whatever the inputs after it are,
    and writes no file. A path with no file raises [FileNotFoundError]. *)
Theorem first_bad_input_stops_main (fs : filesystem)
    (pre post : list string) (file output : string) (e : exn) :
  Forall (fun f => ∃ d, parse_intel_hex fs f = Ok d) pre ->
  parse_intel_hex fs file = Raise e ->
  main (pre ++ file :: post) output fs = Some (Raise e, fs)
  ∧ (fs !! file = None -> e = FileNotFoundError file).
Proof.
  intros Hpre Hfile. split.
  - unfold main. rewrite merge_files_app.
    assert (∀ acc, ∃ acc', merge_files fs pre acc = Ok acc') as Hacc.
    { induction Hpre as [|f pre [d Hd] _ IH]; intros acc; [by eexists |].
      cbn [merge_files]. rewrite Hd. apply IH. }
    destruct (Hacc ∅) as [acc' ->]. cbn [mbind result_bind merge_files].
    by rewrite Hfile.
  - intros Hnone. unfold parse_intel_hex in Hfile. rewrite Hnone in Hfile.
    by injection Hfile as <-.
Qed.

Lemma first_bad_input_stops_main_witness :
  main (["a.hex"%string] ++ "missing.hex"%string :: ["b.hex"%string])
    "out.hex" fs_AB
  = Some (Raise (FileNotFoundError "missing.hex"), fs_AB).
Proof.
  apply (first_bad_input_stops_main fs_AB ["a.hex"%string] ["b.hex"%string]
           "missing.hex" "out.hex" (FileNotFoundError "missing.hex")).
  - repeat constructor. by eexists.
  - reflexivity.
Defined.

Lemma merge_images_empty images :
  Forall (fun d => d = ∅) images -> merge_images images = ∅.
Proof.
  induction images as [|d images IH] using rev_ind; [done |].
  intros [Hi Hd]%Forall_app. apply Forall_singleton in Hd as ->.
  rewrite merge_images_snoc, IH by done. unfold dict_update.
  by rewrite (left_id_L ∅ (∪)).
Qed.

(** X7. When no input holds a data record, so that every file is parsed
    to the empty image, [main] ends without an error and writes no file:
    [write_data_as_hex] is not called. *)
Theorem empty_inputs_write_nothing (fs : filesystem) (files : list string)
    (output : string) :
  Forall (fun f => parse_intel_hex fs f = Ok ∅) files ->
  main files output fs = Some (Ok tt, fs).
Proof.
  intros Hall. unfold main.
  rewrite (merge_files_images fs files (replicate (length files) ∅) ∅).
  - fold (merge_images (replicate (length files) ∅)).
    rewrite merge_images_empty; [by destruct (decide _) |].
    by apply Forall_replicate.
  - induction Hall as [|f files Hf _ IH]; cbn; [constructor |].
    by constructor.
Qed.

Lemma empty_inputs_write_nothing_witness :
  main ["eof.hex"; "eof.hex"]%string "out.hex"
    (<["eof.hex"%string := [text_line ":00000001FF"]]> ∅)
  = Some (Ok tt, <["eof.hex"%string := [text_line ":00000001FF"]]> ∅).
Proof.
  apply (empty_inputs_write_nothing
           (<["eof.hex"%string := [text_line ":00000001FF"]]> ∅)
           ["eof.hex"; "eof.hex"]%string "out.hex").
  repeat constructor.
Defined.

(** ** The layout of the data records *)

Lemma chunk_starts_app t1 t2 :
  chunk_starts (t1 ++ t2) = chunk_starts t1 ++ chunk_starts t2.
Proof. apply omap_app. Qed.

Lemma walk_past_the_end fuel merged hi cur last :
  hi < cur -> walk fuel merged hi cur last = [].
Proof.
  intros H. destruct fuel; [done |]. cbn [walk].
  by destruct (Z.leb_spec cur hi); [lia |].
Qed.

Lemma land_word_mod16 cur : Z.land cur 0xFFFF mod 16 = cur mod 16.
Proof.
  rewrite land_word. apply Z.mod_mod_divide. by exists 4096.
Qed.

(** The data records start at the first address and then at every
    multiple of 16 up to the last address. *)
Lemma walk_chunk_starts fuel merged hi cur last :
  hi - cur + 1 <= Z.of_nat fuel -> cur <= hi ->
  chunk_starts (walk fuel merged hi cur last)
  = cur :: ((fun k => 16 * k) <$> seqZ (cur / 16 + 1) (hi / 16 - cur / 16)).
Proof.
  revert cur last. induction fuel as [|f IH]; intros cur last Hf Hle; [lia |].
  cbn [walk]. destruct (Z.leb_spec cur hi) as [_ | ?]; [| lia].
  destruct (chunk_same_block hi cur Hle) as [H16 _]. cbv zeta in H16.
  pose proof (land_word_mod16 cur) as Hmod.
  pose proof (Z.mod_pos_bound cur 16 ltac:(lia)).
  pose proof (Z.div_mod cur 16 ltac:(lia)).
  assert (Z.min (16 - Z.land cur 0xFFFF mod 16) (hi - cur + 1)
          = Z.min (16 - cur mod 16) (hi - cur + 1)) as Hlen by (by rewrite Hmod).
  rewrite Hlen in *. clear Hlen Hmod.
  set (len := Z.min _ _) in *.
  rewrite chunk_starts_app.
  replace (chunk_starts (if decide _ then _ else _)) with (@nil Z)
    by (by destruct (decide _)).
  cbn [app]. change (chunk_starts (DataRec cur ?l ?o ?b ?c :: ?t))
    with (cur :: chunk_starts t). f_equal.
  destruct (Z.le_gt_cases (cur + len) hi) as [Hnext | Hnext].
  - assert (len = 16 - cur mod 16) as Hl by (subst len; lia).
    assert (cur + len = 16 * (cur / 16 + 1)) as Hc by lia.
    rewrite IH by lia. rewrite Hc.
    replace (16 * (cur / 16 + 1) / 16) with (cur / 16 + 1)
      by (apply Z.div_unique with (r := 0); lia).
    assert (cur / 16 + 1 <= hi / 16).
    { rewrite <- (Z.div_mul (cur / 16 + 1) 16) by lia.
      apply Z.div_le_mono; lia. }
    rewrite (seqZ_cons (cur / 16 + 1)) by lia. cbn [fmap list_fmap].
    do 3 f_equal; lia.
  - rewrite walk_past_the_end by lia.
    assert (cur + len - 1 = hi) as Hl by (subst len; lia).
    rewrite Hl in H16. rewrite seqZ_nil; [done | lia].
Qed.

Lemma elem_of_chunk_starts t cur len off bytes chk :
  DataRec cur len off bytes chk ∈ t -> cur ∈ chunk_starts t.
Proof.
  intros H. unfold chunk_starts. apply list_elem_of_omap.
  by exists (DataRec cur len off bytes chk).
Qed.

(** X8. The data records of the output start at the smallest address and
    then at every multiple of 16 up to the greatest address, so there are
    [max_addr / 16 - min_addr / 16 + 1] of them, and every one but the
    first and the last holds 16 bytes. *)
Theorem data_record_layout (merged : gmap Z Z) (lo hi : Z) :
  min_key merged = Some lo -> max_key merged = Some hi ->
  chunk_starts (trace merged)
  = lo :: ((fun k => 16 * k) <$> seqZ (lo / 16 + 1) (hi / 16 - lo / 16))
  ∧ Z.of_nat (length (chunk_starts (trace merged))) = hi / 16 - lo / 16 + 1
  ∧ ∀ cur len off bytes chk,
      DataRec cur len off bytes chk ∈ trace merged ->
      (cur = lo ∨ cur mod 16 = 0)
      ∧ (len = 16 ∨ cur = lo ∨ cur + len - 1 = hi).
Proof.
  intros Hlo Hhi. pose proof (min_key_le_max_key _ _ _ Hlo Hhi) as Hle.
  assert (chunk_starts (trace merged)
          = lo :: ((fun k => 16 * k) <$> seqZ (lo / 16 + 1) (hi / 16 - lo / 16)))
    as Hstarts.
  { unfold trace. rewrite Hlo, Hhi. apply walk_chunk_starts; lia. }
  assert (lo / 16 <= hi / 16) by (apply Z.div_le_mono; lia).
  split; [exact Hstarts |]. split.
  { rewrite Hstarts. cbn [length]. rewrite length_fmap, length_seqZ. lia. }
  intros cur len off bytes chk He.
  assert (cur = lo ∨ cur mod 16 = 0) as Hcur.
  { apply elem_of_chunk_starts in He. rewrite Hstarts in He.
    apply elem_of_cons in He as [-> | He]; [by left | right].
    apply list_elem_of_fmap in He as (k & -> & _).
    rewrite Z.mul_comm. apply Z.mod_mul. lia. }
  split; [exact Hcur |].
  pose proof (trace_chunk_ok merged lo hi Hlo Hhi) as Hok.
  rewrite Forall_forall in Hok. specialize (Hok _ He).
  destruct Hok as (_ & -> & -> & _). rewrite land_word_mod16.
  destruct Hcur as [-> | ->]; [by right; left |]. lia.
Qed.

Lemma data_record_layout_witness :
  chunk_starts (trace imageA)
  = 0 :: ((fun k => 16 * k) <$> seqZ (0 / 16 + 1) (5 / 16 - 0 / 16))
  ∧ Z.of_nat (length (chunk_starts (trace imageA))) = 5 / 16 - 0 / 16 + 1.
Proof.
  destruct (data_record_layout imageA 0 5) as (H1 & H2 & _);
    [reflexivity | reflexivity |].
  by split.
Defined.

(** ** What the checksum sees *)

Lemma foldl_add_shift a b (xs : list Z) :
  foldl Z.add (a + b) xs = a + foldl Z.add b xs.
Proof.
  revert b. induction xs as [|x xs IH]; intros b; cbn [foldl]; [done |].
  by rewrite <- IH, Z.add_assoc.
Qed.

Lemma sum_shift a (xs : list Z) : foldl Z.add a xs = a + sum xs.
Proof. unfold sum. by rewrite <- foldl_add_shift, Z.add_0_r. Qed.

Lemma sum_cons x (xs : list Z) : sum (x :: xs) = x + sum xs.
Proof. unfold sum at 1. cbn. apply sum_shift. Qed.

Lemma sum_app (xs ys : list Z) : sum (xs ++ ys) = sum xs + sum ys.
Proof.
  induction xs as [|x xs IH]; [done |].
  cbn [app]. rewrite !sum_cons, IH. lia.
Qed.

Lemma sum_permutation (xs ys : list Z) : xs ≡ₚ ys -> sum xs = sum ys.
Proof.
  induction 1 as [| x xs ys _ IH | x y xs | xs ys zs _ IH1 _ IH2];
    rewrite ?sum_cons; (done || lia).
Qed.

Lemma compute_checksum_eq bc off ty xs bc' off' ty' ys :
  compute_checksum bc off ty xs = compute_checksum bc' off' ty' ys
  ↔ (field_sum bc off ty xs - field_sum bc' off' ty' ys) mod 256 = 0.
Proof.
  rewrite !compute_checksum_field_sum, Z.cong_iff_0.
  replace (- field_sum bc off ty xs - - field_sum bc' off' ty' ys)
    with (- (field_sum bc off ty xs - field_sum bc' off' ty' ys)) by lia.
  split; intros H.
  - apply Z.mod_opp_l_z in H; [| lia]. by rewrite Z.opp_involutive in H.
  - by apply Z.mod_opp_l_z.
Qed.

(** X9. The checksum tells any change of one data byte: two records
    that differ in one byte of data only have the same checksum only if
    the two values of the byte are the same modulo 256, which two
    different bytes are not. *)
Theorem checksum_detects_one_byte (bc off ty : Z) (l1 l2 : list Z) (x y : Z) :
  (compute_checksum bc off ty (l1 ++ x :: l2)
   = compute_checksum bc off ty (l1 ++ y :: l2)
   ↔ x mod 256 = y mod 256)
  ∧ (0 <= x < 256 -> 0 <= y < 256 -> x ≠ y ->
     compute_checksum bc off ty (l1 ++ x :: l2)
     ≠ compute_checksum bc off ty (l1 ++ y :: l2)).
Proof.
  assert (compute_checksum bc off ty (l1 ++ x :: l2)
          = compute_checksum bc off ty (l1 ++ y :: l2)
          ↔ x mod 256 = y mod 256) as Hiff.
  { rewrite compute_checksum_eq, Z.cong_iff_0. unfold field_sum.
    rewrite !sum_app, !sum_cons.
    by replace (bc + off / 256 mod 256 + off mod 256 + ty
                + (sum l1 + (x + sum l2))
                - (bc + off / 256 mod 256 + off mod 256 + ty
                   + (sum l1 + (y + sum l2)))) with (x - y) by lia. }
  split; [exact Hiff |]. intros Hx Hy Hne H. apply Hiff in H.
  rewrite !Z.mod_small in H by lia. done.
Qed.

Lemma checksum_detects_one_byte_witness :
  compute_checksum 3 0x0030 0 ([0x02] ++ 0x33 :: [0x7A])
  ≠ compute_checksum 3 0x0030 0 ([0x02] ++ 0x34 :: [0x7A]).
Proof.
  destruct (checksum_detects_one_byte 3 0x0030 0 [0x02] [0x7A] 0x33 0x34)
    as [_ H].
  apply H; lia.
Defined.

(** X10. The checksum does not tell the order of the data bytes: records
    with the same byte count, offset and type whose data are a
    rearrangement of each other have the same checksum. *)
Theorem checksum_blind_to_order (bc off ty : Z) (xs ys : list Z) :
  xs ≡ₚ ys -> compute_checksum bc off ty xs = compute_checksum bc off ty ys.
Proof.
  intros Hp. unfold compute_checksum. by rewrite (sum_permutation xs ys Hp).
Qed.

Lemma checksum_blind_to_order_witness :
  compute_checksum 2 0 0 [0x12; 0x34] = compute_checksum 2 0 0 [0x34; 0x12].
Proof.
  apply (checksum_blind_to_order 2 0 0 [0x12; 0x34] [0x34; 0x12]).
  apply perm_swap.
Defined.

(** ** The addresses of a merge *)

Lemma latest_Some images a v :
  latest images a = Some v -> ∃ d, d ∈ images ∧ d !! a = Some v.
Proof.
  induction images as [|d images IH]; [done |]. cbn.
  destruct (latest images a) as [w |] eqn:E.
  - intros [= <-]. destruct (IH eq_refl) as (d' & Hd' & Hv).
    exists d'. split; [by right | done].
  - intros Hd. exists d. split; [by left | done].
Qed.

Lemma latest_None images a :
  latest images a = None ↔ ∀ d, d ∈ images -> d !! a = None.
Proof.
  induction images as [|d images IH]; cbn.
  - split; [| done]. intros _ d Hd. by apply elem_of_nil in Hd.
  - destruct (latest images a) as [w |] eqn:E.
    + split; [done |]. intros H.
      destruct (latest_Some images a w E) as (d' & Hd' & Hv).
      rewrite H in Hv by (by right). done.
    + split.
      * intros Hd d' [-> | Hd']%elem_of_cons; [done |].
        by apply (proj1 IH eq_refl).
      * intros H. apply H. by left.
Qed.

(** X11. A merge invents nothing and drops nothing: the merged image has
    a value at an address exactly when one of the images has one, and its
    value there is the value of one of them. *)
Theorem merge_keeps_the_addresses (images : list (gmap Z Z)) (a : Z) :
  (is_Some (merge_images images !! a)
   ↔ ∃ d, d ∈ images ∧ is_Some (d !! a))
  ∧ (∀ v, merge_images images !! a = Some v ->
          ∃ d, d ∈ images ∧ d !! a = Some v).
Proof.
  rewrite merge_images_latest. split; [split |].
  - intros [v Hv]. destruct (latest_Some images a v Hv) as (d & Hd & Ha).
    exists d. split; [done | by exists v].
  - intros (d & Hd & [v Hv]). destruct (latest images a) as [w |] eqn:E; [done |].
    rewrite (proj1 (latest_None images a) E d Hd) in Hv. done.
  - intros v Hv. by apply latest_Some.
Qed.

(** X12. When the images agree wherever two of them have the same
    address, their order is of no account: every rearrangement of the
    sequence is merged to the same image. *)
Theorem merge_of_agreeing_images (images images' : list (gmap Z Z)) :
  images ≡ₚ images' ->
  (∀ d1 d2 a x y,
     d1 ∈ images -> d2 ∈ images -> d1 !! a = Some x -> d2 !! a = Some y ->
     x = y) ->
  merge_images images = merge_images images'.
Proof.
  intros Hp Hagree. apply map_eq. intros a. rewrite !merge_images_latest.
  destruct (latest images a) as [v |] eqn:E, (latest images' a) as [w |] eqn:E';
    [| | | done].
  - destruct (latest_Some _ _ _ E) as (d & Hd & Hv).
    destruct (latest_Some _ _ _ E') as (d' & Hd' & Hw).
    rewrite <- Hp in Hd'. f_equal. by apply (Hagree d d' a).
  - destruct (latest_Some _ _ _ E) as (d & Hd & Hv).
    rewrite Hp in Hd.
    rewrite (proj1 (latest_None images' a) E' d Hd) in Hv. done.
  - destruct (latest_Some _ _ _ E') as (d & Hd & Hv).
    rewrite <- Hp in Hd.
    rewrite (proj1 (latest_None images a) E d Hd) in Hv. done.
Qed.

Lemma merge_of_agreeing_images_witness :
  merge_images [imageA; {[0x0100 := 0x01]}]
  = merge_images [{[0x0100 := 0x01]}; imageA].
Proof.
  apply (merge_of_agreeing_images [imageA; {[0x0100 := 0x01]}]
           [{[0x0100 := 0x01]}; imageA]).
  - apply perm_swap.
  - intros d1 d2 a x y H1 H2 Hx Hy.
    assert (∀ d, d ∈ [imageA; ({[0x0100 := 0x01]} : gmap Z Z)] ->
                 d = imageA ∨ d = {[0x0100 := 0x01]}) as Hcase.
    { intros d [-> | [-> | H]%elem_of_cons]%elem_of_cons; auto.
      by apply elem_of_nil in H. }
    assert (∀ v, imageA !! a = Some v ->
                 ({[0x0100 := 0x01]} : gmap Z Z) !! a = None) as Hdisj.
    { intros v Hv. apply lookup_singleton_ne. intros <-. by vm_compute in Hv. }
    destruct (Hcase _ H1) as [-> | ->], (Hcase _ H2) as [-> | ->];
      try congruence.
    + rewrite (Hdisj _ Hx) in Hy. done.
    + rewrite (Hdisj _ Hy) in Hx. done.
Defined.

(** ** The first and the last line of the output *)

Lemma render_not_eof merged lo hi e :
  chunk_ok merged lo hi e -> render e ≠ lit ":00000001FF".
Proof.
  destruct e as [x | cur len off bytes chk]; cbn [render chunk_ok].
  - intros _. unfold gen_ext_record, format_record.
    change (fmtX 2 2) with (lit "02"). cbn [lit list_ascii_of_string app].
    discriminate.
  - intros (Hc & -> & Hl & _).
    pose proof (chunk_len_bounds hi cur ltac:(lia)) as Hb. rewrite <- Hl in Hb.
    unfold format_record. rewrite (fmtX2_fixed_hex len), fixed_hex_2 by lia.
    cbn [lit list_ascii_of_string app]. intros [= H1 H2 _].
    apply (f_equal hex_value) in H1, H2.
    pose proof (Z.mod_pos_bound (len / 16) 16 ltac:(lia)).
    pose proof (Z.mod_pos_bound len 16 ltac:(lia)).
    destruct (hex_char_facts (len / 16 mod 16)) as [_ E1]; [lia |].
    destruct (hex_char_facts (len mod 16)) as [_ E2]; [lia |].
    rewrite E1 in H1. rewrite E2 in H2.
    injection H1 as H1. injection H2 as H2.
    pose proof (Z.div_mod len 16 ltac:(lia)).
    pose proof (Z.div_mod (len / 16) 16 ltac:(lia)).
    assert (len / 16 <= 1) by (apply Z.div_le_upper_bound; lia).
    assert (0 <= len / 16) by (apply Z.div_pos; lia).
    lia.
Qed.

(** X13. The output always starts with the extended linear address record
    of the segment of the smallest address, also when every address lies
    below 64K, and ends with the end-of-file record, which stands nowhere
    else in the file. *)
Theorem output_frame (merged : gmap Z Z) (lo hi : Z) (output_file : string)
    (fs : filesystem) :
  min_key merged = Some lo -> max_key merged = Some hi ->
  ∃ body,
    write_data_as_hex merged output_file fs
    = Some (Ok tt,
            <[output_file :=
                (gen_ext_record (Z.shiftr lo 16) ++ [newline])
                :: body ++ [text_line ":00000001FF"]]> fs)
    ∧ text_line ":00000001FF"
      ∉ (gen_ext_record (Z.shiftr lo 16) ++ [newline]) :: body.
Proof.
  intros Hlo Hhi. pose proof (min_key_le_max_key _ _ _ Hlo Hhi) as Hle.
  pose proof (trace_chunk_ok merged lo hi Hlo Hhi) as Hok.
  assert (∃ rest, trace merged = ExtRec (Z.shiftr lo 16) :: rest)
    as [rest Ht].
  { unfold trace. rewrite Hlo, Hhi.
    replace (Z.to_nat (hi - lo + 1)) with (S (Z.to_nat (hi - lo))) by lia.
    cbn [walk]. destruct (Z.leb_spec lo hi); [| lia].
    destruct (decide _); [done |]. by eexists. }
  exists (lines_of (render <$> rest)). split.
  - rewrite write_data_as_hex_trace by (by eapply nonempty_of_min_key).
    by rewrite file_of_trace_lines, Ht.
  - change ((gen_ext_record (Z.shiftr lo 16) ++ [newline])
            :: lines_of (render <$> rest))
      with (lines_of (render <$> ExtRec (Z.shiftr lo 16) :: rest)).
    rewrite <- Ht. unfold lines_of. rewrite <- list_fmap_compose.
    intros (e & He & Hin)%list_elem_of_fmap. unfold text_line, compose in He.
    apply app_inv_tail in He. rewrite Forall_forall in Hok.
    by apply (render_not_eof merged lo hi e (Hok e Hin)).
Qed.

Lemma output_frame_witness :
  ∃ body,
    write_data_as_hex imageA "out.hex" ∅
    = Some (Ok tt,
            <["out.hex"%string :=
                (gen_ext_record (Z.shiftr 0 16) ++ [newline])
                :: body ++ [text_line ":00000001FF"]]> ∅)
    ∧ text_line ":00000001FF"
      ∉ (gen_ext_record (Z.shiftr 0 16) ++ [newline]) :: body.
Proof.
  apply (output_frame imageA 0 5 "out.hex" ∅); reflexivity.
Defined.

(** ** Bounds of what is parsed *)














(** ** What [main] leaves alone *)

(** X15. [main] always ends, and it changes no file but the output: its
    result is an outcome and a file system in which every other path holds
    what it held before. The inputs are kept, unless the output path is one
    of them. *)
Theorem main_touches_only_the_output (files : list string) (output : string)
    (fs : filesystem) :
  ∃ r fs',
    main files output fs = Some (r, fs')
    ∧ ∀ p, p ≠ output -> fs' !! p = fs !! p.
Proof.
  unfold main. destruct (merge_files fs files ∅) as [merged | e].
  - destruct (decide (merged = ∅)) as [_ | Hne]; [by eexists _, _ |].
    rewrite write_data_as_hex_trace by done. eexists _, _. split; [done |].
    intros p Hp. by rewrite lookup_insert_ne.
  - by eexists _, _.
Qed.

(** ** Segments beyond 16 bits *)

(** X16. An extended linear address record carries the low 16 bits of
    the segment only: segments that differ by a multiple of 65536, which
    addresses of 2^32 and more or negative addresses give, are written as
    the same record. *)
Theorem ext_record_wraps (ext_addr : Z) :
  gen_ext_record ext_addr = gen_ext_record (ext_addr mod 65536)
  ∧ gen_ext_record (ext_addr + 65536) = gen_ext_record ext_addr.
Proof.
  assert (∀ x, gen_ext_record x = gen_ext_record (x mod 65536)) as H.
  { intros x. unfold gen_ext_record. rewrite !land_byte, !shiftr_byte.
    assert (x mod 65536 mod 256 = x mod 256) as ->.
    { apply Z.mod_mod_divide. by exists 256. }
    assert ((x mod 65536 / 256) mod 256 = (x / 256) mod 256) as ->; [| done].
    pose proof (Z.div_mod x 65536 ltac:(lia)).
    pose proof (Z.mod_pos_bound x 65536 ltac:(lia)).
    replace (x / 256) with (x mod 65536 / 256 + x / 65536 * 256).
    { by rewrite Z_mod_plus_full. }
    apply Z.div_unique with (r := x mod 65536 mod 256).
    - left. apply Z.mod_pos_bound. lia.
    - pose proof (Z.div_mod (x mod 65536) 256 ltac:(lia)). lia. }
  split; [apply H |].
  rewrite (H (ext_addr + 65536)), (H ext_addr). f_equal.
  rewrite <- (Z.mul_1_l 65536) at 1. apply Z_mod_plus_full.
Qed.

(** * The licence check *)

Section license_check.
Import license_check.

(** ** Texts *)




Lemma startswith_app (s prefix r : str) :
  startswith s prefix = true -> startswith (s ++ r) prefix = true.
Proof.
  revert s. induction prefix as [| p prefix IH]; intros [| c s]; cbn; try done.
  intros [-> H]%andb_true_iff. by rewrite IH.
Qed.

Lemma startswith_contains (s sub : str) :
  startswith s sub = true -> contains s sub = true.
Proof. destruct s; cbn; by intros ->. Qed.

Lemma startswith_tail (s sub : str) (c : ascii) :
  startswith s (c :: sub) = true -> contains s sub = true.
Proof.
  destruct s as [| a s]; cbn; [done |].
  intros [_ H]%andb_true_iff. rewrite (startswith_contains s sub H).
  apply orb_true_r.
Qed.

Lemma contains_tail (s sub : str) (c : ascii) :
  contains s (c :: sub) = true -> contains s sub = true.
Proof.
  induction s as [| a s IH]; [done |].
  intros [H | H]%orb_true_iff; [by apply startswith_tail in H |].
  cbn [contains]. rewrite (IH H). apply orb_true_r.
Qed.

Lemma endswith_app (pre s suffix : str) :
  endswith s suffix = true -> endswith (pre ++ s) suffix = true.
Proof. unfold endswith. rewrite rev_app_distr. apply startswith_app. Qed.

Lemma is_source_join (root file : str) :
  is_source file = true -> is_source (join root file) = true.
Proof.
  unfold is_source. rewrite !existsb_exists. intros (sfx & Hin & H).
  exists sfx. split; [done |]. unfold join.
  destruct (startswith file (lit "/")); [done |].
  destruct (bool_decide (root = []) || endswith root (lit "/")).
  - by apply endswith_app.
  - rewrite app_assoc. by apply endswith_app.
Qed.

(** ** The patterns *)

Lemma first_match_notices (header : str) :
  first_match LICENSE_PATTERNS header =
    if existsb (contains header)
         [lit "mit license";
          lit "permission is hereby granted, free of charge"]
    then Some "MIT"%string
    else if existsb (contains header)
              [lit "gnu lesser general public license"; lit "lgpl"]
    then Some "LGPL"%string
    else if existsb (contains header)
              [lit "gnu general public license"; lit "gpl"]
    then Some "GPL"%string
    else if existsb (contains header) [lit "apache license"]
    then Some "Apache"%string
    else if existsb (contains header) [lit "creative commons cc0"]
    then Some "CC0"%string
    else if existsb (contains header)
              [lit "bsd license"; lit "redistribution and use in source"]
    then Some "BSD"%string
    else None.
Proof. reflexivity. Qed.

Lemma copyright_notices (header : str) :
  re_search COPYRIGHT_PATTERN header =
    existsb (contains header) [lit "copyright"; [copyright_sign]; lit "(c)"].
Proof. reflexivity. Qed.

Lemma detect_license_notices (content : str) :
  fst (detect_license content) =
    existsb (contains (lower (take 1000 content))) NOTICES.
Proof.
  unfold detect_license. rewrite first_match_notices, copyright_notices.
  unfold NOTICES. cbn [existsb].
  repeat match goal with
         | |- context [contains ?h ?w] =>
             destruct (contains h w); cbn [orb fst]; try reflexivity
         end.
Qed.

(** X17. A file has a licence, for [detect_license], exactly when one of
    thirteen phrases occurs in its first 1000 characters, put in lower
    case; and the licence type is empty exactly when it has none. *)
Theorem notice_decides (content : str) :
  (fst (detect_license content) = true
   ↔ ∃ notice, notice ∈ NOTICES
       ∧ contains (lower (take 1000 content)) notice = true)
  ∧ (fst (detect_license content) = false
     ↔ snd (detect_license content) = ""%string).
Proof.
  split.
  - rewrite detect_license_notices, existsb_exists.
    split; intros (w & Hin & H); exists w; by rewrite ?list_elem_of_In in *.
  - unfold detect_license. rewrite first_match_notices.
    repeat (destruct (existsb _ _); [done |]).
    by destruct (re_search _ _).
Qed.


(** X19. A header in which [lgpl] occurs matches the pattern of the GPL as
    well, since the one abbreviation ends with the other; the LGPL comes
    first in [LICENSE_PATTERNS], so that such a file is never reported
    as GPL: its type is MIT or LGPL. *)
Theorem lgpl_is_never_gpl (content : str) :
  contains (lower (take 1000 content)) (lit "lgpl") = true ->
  (∀ pattern, ("GPL"%string, pattern) ∈ LICENSE_PATTERNS ->
     re_search (lower pattern) (lower (take 1000 content)) = true)
  ∧ (detect_license content = (true, "MIT"%string)
     ∨ detect_license content = (true, "LGPL"%string)).
Proof.
  intros H. split.
  - intros pattern Hin. unfold LICENSE_PATTERNS in Hin.
    assert (pattern = lit "GNU General Public License|GPL") as ->.
    { repeat (apply elem_of_cons in Hin as [Heq | Hin]; [congruence |]).
      by apply elem_of_nil in Hin. }
    apply existsb_exists. exists (lit "gpl").
    split; [right; by left |]. by apply contains_tail in H.
  - unfold detect_license. rewrite first_match_notices.
    destruct (existsb _ [lit "mit license"; _]); [by left |].
    cbn [existsb]. rewrite H, orb_true_r. by right.
Qed.

Lemma lgpl_is_never_gpl_witness :
  contains (lower (take 1000 (lit "// SPDX-License-Identifier: LGPL-2.1")))
    (lit "lgpl") = true
  ∧ detect_license (lit "// SPDX-License-Identifier: LGPL-2.1")
      = (true, "LGPL"%string).
Proof.
  split; [reflexivity |].
  destruct (lgpl_is_never_gpl (lit "// SPDX-License-Identifier: LGPL-2.1")
              eq_refl) as [_ [H | H]]; [discriminate H | exact H].
Defined.

(** ** The source files of a directory *)

Lemma tree_induction (P : tree -> Prop) :
  (∀ dirs files, Forall (fun d => P (snd d)) dirs -> P (Dir dirs files)) ->
  ∀ t, P t.
Proof.
  intros H. fix IH 1. intros [dirs files]. apply H.
  induction dirs as [| d dirs IHdirs]; constructor; [apply IH | apply IHdirs].
Qed.

Lemma find_source_files_Dir (dirs : list (str * tree)) (files : list str)
    (src_dir : str) :
  find_source_files (Dir dirs files) src_dir =
    (join src_dir <$> filter (fun f => is_source f) files)
    ++ flat_map
         (fun d => find_source_files (snd d) (join src_dir (fst d))) dirs.
Proof.
  unfold find_source_files. cbn [os_walk flat_map]. f_equal.
  induction dirs as [| d dirs IH]; [done |].
  cbn [flat_map]. by rewrite flat_map_app, IH.
Qed.

Lemma entries_Dir_sources (dirs : list (str * tree)) (files : list str)
    (src_dir : str) :
  Forall (fun d => ∀ top,
            find_source_files (snd d) top
            = (fun e => join (fst e) (snd e))
                <$> filter (fun e => is_source (snd e)) (entries (snd d) top))
    dirs ->
  flat_map (fun d => find_source_files (snd d) (join src_dir (fst d))) dirs
  = (fun e => join (fst e) (snd e))
      <$> filter (fun e => is_source (snd e))
            (flat_map (fun d => entries (snd d) (join src_dir (fst d))) dirs).
Proof.
  induction 1 as [| d dirs Hd _ IH]; [done |].
  cbn [flat_map]. by rewrite filter_app, fmap_app, Hd, IH.
Qed.

Lemma find_source_files_entries (t : tree) (src_dir : str) :
  find_source_files t src_dir
  = (fun e => join (fst e) (snd e))
      <$> filter (fun e => is_source (snd e)) (entries t src_dir).
Proof.
  revert src_dir. induction t as [dirs files IH] using tree_induction.
  intros src_dir. rewrite find_source_files_Dir. cbn [entries].
  rewrite filter_app, fmap_app, (entries_Dir_sources dirs files src_dir IH).
  f_equal. clear IH. induction files as [| f files IHf]; [done |].
  rewrite fmap_cons, !filter_cons. cbn [snd].
  destruct (decide (is_source f)); by rewrite ?fmap_cons, IHf.
Qed.

(** *** Listings without repeated names *)

Lemma is_name_facts (n : str) :
  is_name n = true -> n ≠ [] ∧ Forall (fun c => c ≠ "/"%char) n.
Proof.
  unfold is_name. intros [Hn Hs]%andb_prop. split.
  - intros ->. done.
  - apply forallb_Forall_true in Hs. eapply Forall_impl; [exact Hs |].
    intros c Hc ->. done.
Qed.

Lemma join_name (top n : str) : is_name n = true -> join top n = base top ++ n.
Proof.
  intros [Hn Hs]%is_name_facts. unfold join, base.
  destruct n as [| c n]; [done |]. apply Forall_cons in Hs as [Hc _].
  cbn [startswith lit list_ascii_of_string].
  destruct (Ascii.eqb_spec "/"%char c) as [<- | _]; [by destruct Hc |].
  cbn [andb]. destruct (_ || _); [done |]. by rewrite <- app_assoc.
Qed.

Lemma endswith_name (s n : str) :
  is_name n = true -> endswith (s ++ n) (lit "/") = false.
Proof.
  intros [Hn Hs]%is_name_facts.
  destruct n as [| x n _] using rev_ind; [done |].
  apply Forall_app in Hs as [_ [Hx _]%Forall_cons].
  unfold endswith. rewrite app_assoc, rev_app_distr.
  cbn [rev app startswith lit list_ascii_of_string].
  destruct (Ascii.eqb_spec "/"%char x) as [<- | _]; [by destruct Hx | done].
Qed.

Lemma base_join (top n : str) :
  is_name n = true -> base (join top n) = base top ++ n ++ lit "/".
Proof.
  intros Hn. rewrite (join_name top n Hn). unfold base at 1.
  rewrite (endswith_name (base top) n Hn), orb_false_r.
  rewrite bool_decide_eq_false_2; [by rewrite <- app_assoc |].
  intros [_ ->]%app_eq_nil. done.
Qed.

Lemma listing_ok_Dir (dirs : list (str * tree)) (files : list str) :
  listing_ok (Dir dirs files) = true ->
  NoDup ((fst <$> dirs) ++ files)
  ∧ Forall (fun n => is_name n = true) ((fst <$> dirs) ++ files)
  ∧ Forall (fun d => listing_ok (snd d) = true) dirs.
Proof.
  change (listing_ok (Dir dirs files))
    with (bool_decide (NoDup ((fst <$> dirs) ++ files))
          && forallb is_name ((fst <$> dirs) ++ files)
          && forallb (fun d => listing_ok (snd d)) dirs).
  intros [[H1 H2]%andb_prop H3]%andb_prop.
  apply bool_decide_eq_true in H1.
  apply forallb_Forall_true in H2. apply forallb_Forall_true in H3. done.
Qed.

Lemma find_source_files_relative (t : tree) :
  listing_ok t = true ->
  ∀ src_dir,
    find_source_files t src_dir
    = (fun r => base src_dir ++ r) <$> relative_paths t.
Proof.
  induction t as [dirs files IH] using tree_induction.
  intros (_ & Hnames & Hsub)%listing_ok_Dir src_dir.
  apply Forall_app in Hnames as [Hdn Hfn].
  rewrite find_source_files_Dir. cbn [relative_paths]. rewrite fmap_app.
  f_equal.
  - apply Forall_fmap_ext, Forall_forall.
    intros f [_ Hf]%list_elem_of_filter. apply join_name.
    rewrite Forall_forall in Hfn. by apply Hfn.
  - clear Hfn. induction dirs as [| d dirs IHdirs]; [done |].
    apply Forall_cons in IH as [Hd IH]. apply Forall_cons in Hsub as [Hokd Hsub].
    rewrite fmap_cons in Hdn. apply Forall_cons in Hdn as [Hn Hdn].
    cbn [flat_map]. rewrite fmap_app, IHdirs by done. f_equal.
    rewrite (Hd Hokd), (base_join src_dir (fst d) Hn).
    rewrite <- list_fmap_compose. apply list_fmap_ext. intros _ r _.
    cbn. by rewrite <- !app_assoc.
Qed.

(** Two paths that go through directories of different names differ. *)
Lemma name_split (n m r r' : str) :
  Forall (fun c => c ≠ "/"%char) n -> Forall (fun c => c ≠ "/"%char) m ->
  n ++ lit "/" ++ r = m ++ lit "/" ++ r' -> n = m.
Proof.
  intros Hn. revert m. induction Hn as [| c n Hc Hn IH]; intros m Hm.
  - destruct Hm as [| c' m Hc' Hm]; [done |]. cbn. intros [= <- _]. done.
  - destruct Hm as [| c' m Hc' Hm]; cbn.
    + intros [= -> _]. done.
    + intros [= -> E]. f_equal. by apply (IH m Hm).
Qed.

Lemma relative_paths_NoDup (t : tree) :
  listing_ok t = true -> NoDup (relative_paths t).
Proof.
  induction t as [dirs files IH] using tree_induction.
  intros (Hnd & Hnames & Hsub)%listing_ok_Dir.
  apply NoDup_app in Hnd as (Hndd & Hdf & Hndf).
  apply Forall_app in Hnames as [Hdn Hfn].
  cbn [relative_paths]. apply NoDup_app. split; [by apply NoDup_filter |].
  split.
  - intros f [_ Hf]%list_elem_of_filter Hin.
    apply list_elem_of_In, in_flat_map in Hin as (d & _ & Hin).
    apply list_elem_of_In, list_elem_of_fmap in Hin as (r & -> & _).
    rewrite Forall_forall in Hfn. apply Hfn, is_name_facts in Hf as [_ Hf].
    apply Forall_app in Hf as [_ Hf]. by apply Forall_cons in Hf as [Hf _].
  - clear Hdf Hfn Hndf. induction dirs as [| d dirs IHdirs]; [constructor |].
    apply Forall_cons in IH as [Hd IH]. apply Forall_cons in Hsub as [Hokd Hsub].
    rewrite fmap_cons in Hdn, Hndd.
    apply Forall_cons in Hdn as [Hn Hdn]. apply NoDup_cons in Hndd as [Hnew Hndd].
    cbn [flat_map]. apply NoDup_app. split; [| split].
    + apply NoDup_fmap_2; [| by apply Hd]. intros r r' E.
      apply app_inv_head in E. by injection E.
    + intros p (r & -> & _)%list_elem_of_fmap Hin.
      apply list_elem_of_In, in_flat_map in Hin as (d' & Hd' & Hin).
      apply list_elem_of_In, list_elem_of_fmap in Hin as (r' & E & _).
      apply Hnew. apply list_elem_of_In in Hd'.
      assert (fst d = fst d') as ->; [| by apply list_elem_of_fmap_2].
      apply (name_split _ _ r r'); [| | exact E].
      * by apply is_name_facts in Hn as [_ ?].
      * rewrite Forall_forall in Hdn.
        assert (is_name (fst d') = true) as Hn'.
        { apply Hdn. by apply list_elem_of_fmap_2. }
        by apply is_name_facts in Hn' as [_ ?].
    + by apply IHdirs.
Qed.

(** X20. [find_source_files] returns one path for each file entry of the
    directory and of the directories below it whose name ends in one of
    the five suffixes, in the order of the walk, and nothing else: each
    path ends in one of the suffixes, and there are as many paths as such
    entries. When the listings are those of a file system, every entry a
    name without a slash and no name twice in a directory, no path is
    returned twice. *)
Theorem found_files_are_the_sources (t : tree) (src_dir : str) :
  find_source_files t src_dir
  = (fun e => join (fst e) (snd e))
      <$> filter (fun e => is_source (snd e)) (entries t src_dir)
  ∧ Forall (fun p => is_source p = true) (find_source_files t src_dir)
  ∧ length (find_source_files t src_dir) = source_count t
  ∧ (listing_ok t = true -> NoDup (find_source_files t src_dir)).
Proof.
  split; [apply find_source_files_entries |].
  split; [| split].
  - rewrite find_source_files_entries. apply Forall_fmap, Forall_forall.
    intros [root f] [Hf _]%list_elem_of_filter.
    apply is_source_join. by apply Is_true_true.
  - revert src_dir. induction t as [dirs files IH] using tree_induction.
    intros src_dir. rewrite find_source_files_Dir.
    rewrite length_app, length_fmap. cbn [source_count]. f_equal.
    induction IH as [| d dirs Hd _ IHdirs]; [done |].
    cbn [flat_map map]. rewrite length_app, IHdirs, Hd. reflexivity.
  - intros Hok. rewrite (find_source_files_relative t Hok).
    apply NoDup_fmap_2; [| by apply relative_paths_NoDup].
    intros r r' E. by apply app_inv_head in E.
Qed.

(** The two sources of a small tree, found once each. *)
Lemma found_files_are_the_sources_witness :
  listing_ok
    (Dir [(lit "lib", Dir [] [lit "a.c"; lit "notes.txt"])]
       [lit "a.c"; lit "README"]) = true
  ∧ find_source_files
      (Dir [(lit "lib", Dir [] [lit "a.c"; lit "notes.txt"])]
         [lit "a.c"; lit "README"]) (lit "src")
    = [lit "src/a.c"; lit "src/lib/a.c"]
  ∧ NoDup
      (find_source_files
         (Dir [(lit "lib", Dir [] [lit "a.c"; lit "notes.txt"])]
            [lit "a.c"; lit "README"]) (lit "src")).
Proof.
  split; [reflexivity |]. split; [reflexivity |].
  by apply (found_files_are_the_sources
              (Dir [(lit "lib", Dir [] [lit "a.c"; lit "notes.txt"])]
                 [lit "a.c"; lit "README"]) (lit "src")).
Defined.

(** ** The counters *)

Lemma count_sum_insert (m : gmap string Z) (k : string) :
  count_sum (<[k := default 0 (m !! k) + 1]> m) = count_sum m + 1.
Proof.
  unfold count_sum. destruct (m !! k) as [v |] eqn:E.
  - rewrite <- insert_delete_eq.
    rewrite map_fold_insert_L; [| intros; lia | apply lookup_delete_eq].
    rewrite (map_fold_delete_L _ _ k v m); [| intros; lia | done].
    cbn. lia.
  - rewrite map_fold_insert_L; [| intros; lia | done]. cbn. lia.
Qed.

Lemma check_file_counts (read : str -> option str) (st : stats)
    (file_path : str) :
  let st' := check_file read st file_path in
  total_files st' = total_files st
  ∧ with_license st' + without_license st' =
      with_license st + without_license st
      + (if readable read file_path then 1 else 0)
  ∧ without_license st' =
      without_license st + (if unlicensed read file_path then 1 else 0)
  ∧ count_sum (license_types st') - with_license st' =
      count_sum (license_types st) - with_license st.
Proof.
  unfold check_file, readable, unlicensed.
  destruct (read file_path) as [content |]; cbn; [| lia].
  destruct (detect_license content) as [[] license_type]; cbn;
    rewrite ?count_sum_insert; lia.
Qed.

Lemma check_files_counts (read : str -> option str) (files : list str)
    (st : stats) :
  let st' := fold_left (check_file read) files st in
  total_files st' = total_files st
  ∧ with_license st' + without_license st' =
      with_license st + without_license st
      + Z.of_nat (length (filter (fun p => readable read p) files))
  ∧ without_license st' =
      without_license st
      + Z.of_nat (length (filter (fun p => unlicensed read p) files))
  ∧ count_sum (license_types st') - with_license st' =
      count_sum (license_types st) - with_license st.
Proof.
  revert st. induction files as [| p files IH]; intros st; cbn [fold_left].
  { rewrite !filter_nil. cbn [length]. lia. }
  destruct (IH (check_file read st p)) as (H1 & H2 & H3 & H4).
  destruct (check_file_counts read st p) as (G1 & G2 & G3 & G4).
  rewrite !filter_cons.
  destruct (readable read p), (unlicensed read p);
    repeat case_decide; cbn in *; try tauto; lia.
Qed.

Lemma without_license_count (read : str -> option str) (t : tree)
    (src_dir : str) :
  without_license (check_licenses read t src_dir) =
    Z.of_nat (length (filter (fun p => unlicensed read p)
                        (find_source_files t src_dir))).
Proof.
  unfold check_licenses.
  destruct (check_files_counts read (find_source_files t src_dir)
              (Stats (Z.of_nat (length (find_source_files t src_dir))) 0 0 ∅))
    as (_ & _ & H3 & _).
  cbn in H3. lia.
Qed.

(** X21. The counters of [check_licenses] add up: the total is the number
    of files found; the files with and without a licence are together the
    files that could be read, so at most the total; the files without a
    licence are those that were read and hold no notice; and the counts
    per licence type sum to the number of files with a licence. *)
Theorem counters_add_up (read : str -> option str) (t : tree)
    (src_dir : str) :
  let st := check_licenses read t src_dir in
  let files := find_source_files t src_dir in
  total_files st = Z.of_nat (length files)
  ∧ with_license st + without_license st =
      Z.of_nat (length (filter (fun p => readable read p) files))
  ∧ with_license st + without_license st <= total_files st
  ∧ without_license st =
      Z.of_nat (length (filter (fun p => unlicensed read p) files))
  ∧ count_sum (license_types st) = with_license st.
Proof.
  cbn zeta. unfold check_licenses.
  destruct (check_files_counts read (find_source_files t src_dir)
              (Stats (Z.of_nat (length (find_source_files t src_dir))) 0 0 ∅))
    as (H1 & H2 & H3 & H4).
  cbn in H1, H2, H3, H4. unfold count_sum in H4 at 2.
  rewrite map_fold_empty in H4.
  pose proof (length_filter (fun p => readable read p)
                (find_source_files t src_dir)).
  repeat split; lia.
Qed.

(** X22. On a directory, [main] exits with status 0 exactly when every
    source file that could be read holds a notice: a file that cannot be
    read does not fail the check. *)
Theorem unread_files_pass (read : str -> option str) (t : tree)
    (src_dir : str) :
  main read (Directory t) src_dir = 0
  ↔ ∀ p content,
      p ∈ find_source_files t src_dir -> read p = Some content ->
      fst (detect_license content) = true.
Proof.
  unfold main. rewrite without_license_count. destruct (0 <? _) eqn:E.
  - apply Z.ltb_lt in E. split; [done |]. intros H. exfalso.
    destruct (filter _ _) as [| p l] eqn:Ef; [cbn in E; lia |].
    assert (p ∈ filter (fun p => unlicensed read p)
                  (find_source_files t src_dir)) as Hp.
    { rewrite Ef. by left. }
    apply list_elem_of_filter in Hp as [Hu Hp]. unfold unlicensed in Hu.
    destruct (read p) as [content |] eqn:Er; [| done].
    by rewrite (H p content Hp Er) in Hu.
  - apply Z.ltb_ge in E. split; [| done]. intros _ p content Hp Er.
    destruct (fst (detect_license content)) eqn:Ed; [done |]. exfalso.
    assert (p ∈ filter (fun p => unlicensed read p)
                  (find_source_files t src_dir)) as Hin.
    { apply list_elem_of_filter. split; [| done].
      unfold unlicensed. by rewrite Er, Ed. }
    destruct (filter _ _); [by apply elem_of_nil in Hin | cbn in E; lia].
Qed.

End license_check.
